(** * Persistent ternary search trees (src/tst.h)

    A shallow embedding of the class template [TST<C>] and of the helper
    [Detail::fold], followed by the properties of insertion, membership,
    longest-prefix search, folding and error behaviour.

    Modelling conventions.
    - A symbol of type [C] (an integer character type, [char] by default) is
      its code as a [Z]; the code [0] is the terminator ['\0'].  Symbols are
      only copied and compared, never computed with, so no wrap-around occurs.
    - A [const C *] is the list of the codes stored from the pointer on, up to
      the terminator that ends the buffer: dereferencing at the end of the list
      reads that terminator.  A [std::basic_string<C>] is the list of its
      [length()] symbols, which may contain the code [0]; [c_str()] is the same
      list seen as a buffer, so the overloads of the constructor and of
      [operator+] that take a string are [TST_of] and [plus] on that list.
    - A tree is a possibly null [shared_ptr<Node>].  The value-level model is
      the inductive type [TST]; the store-level model ([Module Store]) keeps
      the nodes in a heap and the trees as addresses, so that sharing can be
      stated on pointers.
    - [size_t] counters are [nat]: the matched length never exceeds the length
      of the query and the node count never exceeds the number of allocated
      nodes, so they stay below [2^64]. *)

From Stdlib Require Import String Ascii ZArith List Bool Lia.
Import ListNotations.
Local Open Scope Z_scope.

(** ** Symbols and null-terminated strings *)

Definition C := Z.

(** The terminator ['\0']. *)
Definition NUL : C := 0.

(** [*str]: the symbol under the pointer; the terminator at the end. *)
Definition deref (str : list C) : C :=
  match str with
  | [] => NUL
  | c :: _ => c
  end.

(** [str + 1].  It is only formed where [*str] is not the terminator. *)
Definition next (str : list C) : list C :=
  match str with
  | [] => []
  | _ :: s => s
  end.

(** [!*str] *)
Definition at_end (str : list C) : bool := deref str =? NUL.

(** The sequence a buffer denotes as a C string: its symbols before the first
    terminator. *)
Fixpoint c_str (str : list C) : list C :=
  match str with
  | [] => []
  | c :: s => if c =? NUL then [] else c :: c_str s
  end.

(** A string without embedded terminator. *)
Definition nul_free (s : list C) : bool := forallb (fun c => negb (c =? NUL)) s.

(** ASCII string literals as code sequences. *)
Fixpoint lit (s : string) : list C :=
  match s with
  | EmptyString => []
  | String a s' => Z.of_N (N_of_ascii a) :: lit s'
  end.

(** ** Detail::fold *)

Module Detail.

(** [fold(first, last, acc, functor)] over the range held in a list. *)
Fixpoint fold {A Acc : Type} (range : list A) (acc : Acc)
    (functor : Acc -> A -> Acc) : Acc :=
  match range with
  | [] => acc
  | first :: rest => fold rest (functor acc first) functor
  end.

End Detail.

(** ** Trees *)

(** A tree is empty ([_root == nullptr]) or a node with its five fields. *)
Inductive TST : Type :=
| Empty : TST
| Node (_value : C) (_word : bool) (_left _center _right : TST) : TST.

(** [empty()] *)
Definition empty (t : TST) : bool :=
  match t with
  | Empty => true
  | Node _ _ _ _ _ => false
  end.

(** *** Outcomes of calls that can throw *)

Inductive outcome (A : Type) : Type :=
| Ret (a : A)             (* normal return *)
| EmptyTreeError          (* std::logic_error("Ternary search tree empty.") *)
| NullDereference         (* a field read through a null [_root]: undefined *)
| OutOfFuel.              (* the recursion budget of the model ran out *)
Arguments Ret {A} a.
Arguments EmptyTreeError {A}.
Arguments NullDereference {A}.
Arguments OutOfFuel {A}.

Definition bind {A B : Type} (m : outcome A) (k : A -> outcome B) : outcome B :=
  match m with
  | Ret a => k a
  | EmptyTreeError => EmptyTreeError
  | NullDereference => NullDereference
  | OutOfFuel => OutOfFuel
  end.

Declare Scope outcome_scope.
Delimit Scope outcome_scope with outcome.
Notation "x <- m ;; k" := (bind m (fun x => k))
  (at level 61, m at next level, right associativity) : outcome_scope.
Notation "m ;;; k" := (bind m (fun _ => k))
  (at level 61, right associativity) : outcome_scope.

(** [assert_not_empty()] *)
Definition assert_not_empty (t : TST) : outcome unit :=
  if empty t then EmptyTreeError else Ret tt.

(** The five accessors: the assertion, then the field of the root.  Only the
    assertion throws; the field read, [_root->_value] and the like, would
    dereference a null pointer on the empty tree if the assertion let it
    through. *)
Definition value (t : TST) : outcome C :=
  (assert_not_empty t ;;;
   match t with Node v _ _ _ _ => Ret v | Empty => NullDereference end)%outcome.

Definition word (t : TST) : outcome bool :=
  (assert_not_empty t ;;;
   match t with Node _ w _ _ _ => Ret w | Empty => NullDereference end)%outcome.

Definition left (t : TST) : outcome TST :=
  (assert_not_empty t ;;;
   match t with Node _ _ l _ _ => Ret l | Empty => NullDereference end)%outcome.

Definition center (t : TST) : outcome TST :=
  (assert_not_empty t ;;;
   match t with Node _ _ _ c _ => Ret c | Empty => NullDereference end)%outcome.

Definition right (t : TST) : outcome TST :=
  (assert_not_empty t ;;;
   match t with Node _ _ _ _ r => Ret r | Empty => NullDereference end)%outcome.

(** *** Construction *)

(** [TST(const C *str)]: the tree that is a single path. *)
Fixpoint TST_of (str : list C) : TST :=
  match str with
  | [] => Empty
  | c :: s =>
      if c =? NUL then Empty
      else Node c (at_end s) Empty (TST_of s) Empty
  end.

(** *** Insertion: [operator+(const C *str)]

    Every recursive call is made on a child of the receiver, so the
    definition is structural in the tree; the guarded accessors are read
    off the pattern, after the [empty()] test. *)
Fixpoint plus (t : TST) (str : list C) {struct t} : TST :=
  if deref str =? NUL then t
  else
    match t with
    | Empty => TST_of str
    | Node v w l c r =>
        if deref str >? v then Node v w l c (plus r str)
        else if deref str <? v then Node v w (plus l str) c r
        else Node (deref str) (w || at_end (next str)) l (plus c (next str)) r
    end.

(** *** Prefix search *)

Fixpoint prefix_search (t : TST) (str : list C) (acc : nat) (parent : TST)
    {struct t} : nat * TST :=
  match t with
  | Empty => (acc, parent)
  | Node v _ l c r =>
      if at_end str then (acc, parent)
      else if v >? deref str then prefix_search l str acc t
      else if v <? deref str then prefix_search r str acc t
      else prefix_search c (next str) (acc + 1)%nat t
  end.

(** [!node.empty() && node.word()] *)
Definition ends_word (node : TST) : bool :=
  negb (empty node) &&
  match node with
  | Node _ w _ _ _ => w
  | Empty => false
  end.

(** [exist(const std::basic_string<C> &str)] *)
Definition exist (t : TST) (str : list C) : bool :=
  let '(length, node) := prefix_search t str 0%nat Empty in
  Nat.eqb length (List.length str) && ends_word node.

(** [prefix(const std::basic_string<C> &str)]: [str.substr(0, n)]. *)
Definition prefix (t : TST) (str : list C) : list C :=
  firstn (fst (prefix_search t str 0%nat Empty)) str.

(** *** Fold and size *)

Fixpoint fold {Acc : Type} (t : TST) (acc : Acc) (functor : Acc -> TST -> Acc)
    {struct t} : Acc :=
  match t with
  | Empty => acc
  | Node _ _ l c r =>
      let children := [l; c; r] in
      let fold_bind := fun (a : Acc) (t' : TST) => fold t' a functor in
      let reduced := Detail.fold children acc fold_bind in
      functor reduced t
  end.

Definition size (t : TST) : nat :=
  fold t 0%nat (fun acc _ => (acc + 1)%nat).

(** ** The same operations with the accessors' exceptions kept

    [operator+], [prefix_search], [exist], [prefix], [fold] and [size] written
    with the throwing accessors, as in the source.  The receiver of a recursive
    call is the result of an accessor, so the recursion takes a budget. *)

Module Checked.

Local Open Scope outcome_scope.

Fixpoint plus (fuel : nat) (t : TST) (str : list C) : outcome TST :=
  match fuel with
  | O => OutOfFuel
  | S fuel =>
      if deref str =? NUL then Ret t
      else if empty t then Ret (TST_of str)
      else
        v <- value t ;;
        if deref str >? v then
          v <- value t ;; w <- word t ;; l <- left t ;; c <- center t ;;
          r <- right t ;; r' <- plus fuel r str ;;
          Ret (Node v w l c r')
        else
          v <- value t ;;
          if deref str <? v then
            v <- value t ;; w <- word t ;; l <- left t ;;
            l' <- plus fuel l str ;; c <- center t ;; r <- right t ;;
            Ret (Node v w l' c r)
          else
            w <- word t ;; l <- left t ;; c <- center t ;;
            c' <- plus fuel c (next str) ;; r <- right t ;;
            Ret (Node (deref str) (w || at_end (next str)) l c' r)
  end.

Fixpoint prefix_search (fuel : nat) (t : TST) (str : list C) (acc : nat)
    (parent : TST) : outcome (nat * TST) :=
  match fuel with
  | O => OutOfFuel
  | S fuel =>
      if empty t || at_end str then Ret (acc, parent)
      else
        v <- value t ;;
        if v >? deref str then
          l <- left t ;; prefix_search fuel l str acc t
        else
          v <- value t ;;
          if v <? deref str then
            r <- right t ;; prefix_search fuel r str acc t
          else
            c <- center t ;; prefix_search fuel c (next str) (acc + 1)%nat t
  end.

Definition exist (fuel : nat) (t : TST) (str : list C) : outcome bool :=
  found <- prefix_search fuel t str 0%nat Empty ;;
  let '(length, node) := found in
  if Nat.eqb length (List.length str) && negb (empty node)
  then word node
  else Ret false.

Definition prefix (fuel : nat) (t : TST) (str : list C) : outcome (list C) :=
  found <- prefix_search fuel t str 0%nat Empty ;;
  Ret (firstn (fst found) str).

(** [Detail::fold] with a functor that may throw. *)
Fixpoint range_fold {A Acc : Type} (range : list A) (acc : Acc)
    (functor : Acc -> A -> outcome Acc) : outcome Acc :=
  match range with
  | [] => Ret acc
  | first :: rest =>
      acc' <- functor acc first ;; range_fold rest acc' functor
  end.

(** [fold] reads the three child pointers of the root directly, after the
    [empty()] test. *)
Fixpoint fold {Acc : Type} (fuel : nat) (t : TST) (acc : Acc)
    (functor : Acc -> TST -> outcome Acc) : outcome Acc :=
  match fuel with
  | O => OutOfFuel
  | S fuel =>
      match t with
      | Empty => Ret acc
      | Node _ _ l c r =>
          reduced <- range_fold [l; c; r] acc
                       (fun a t' => fold fuel t' a functor) ;;
          functor reduced t
      end
  end.

Definition size (fuel : nat) (t : TST) : outcome nat :=
  fold fuel t 0%nat (fun acc _ => Ret (acc + 1)%nat).

End Checked.

(** The number of nested calls a descent can make. *)
Fixpoint height (t : TST) : nat :=
  match t with
  | Empty => 0%nat
  | Node _ _ l c r => S (Nat.max (height l) (Nat.max (height c) (height r)))
  end.

(** ** Positions in a tree *)

Inductive dir : Type := to_left | to_center | to_right.

Definition path := list dir.

Definition dir_eqb (d e : dir) : bool :=
  match d, e with
  | to_left, to_left | to_center, to_center | to_right, to_right => true
  | _, _ => false
  end.

(** The subtree reached by following a path with [left()], [center()] and
    [right()]; [None] when an accessor would be applied to an empty tree. *)
Fixpoint subtree_at (t : TST) (p : path) {struct p} : option TST :=
  match p with
  | [] => Some t
  | d :: q =>
      match t with
      | Empty => None
      | Node _ _ l c r =>
          subtree_at (match d with
                      | to_left => l
                      | to_center => c
                      | to_right => r
                      end) q
      end
  end.

(** The subtree at a position, the empty tree where there is none. *)
Definition sub (t : TST) (p : path) : TST :=
  match subtree_at t p with
  | Some u => u
  | None => Empty
  end.

(** The descent that [str] dictates in [t]: the branch taken at each node
    met, as in [operator+] and [prefix_search]. *)
Fixpoint descent (t : TST) (str : list C) {struct t} : path :=
  match t with
  | Empty => []
  | Node v _ l c r =>
      if deref str =? NUL then []
      else if deref str >? v then to_right :: descent r str
      else if deref str <? v then to_left :: descent l str
      else to_center :: descent c (next str)
  end.

(** [q] is a prefix of [p] and shorter. *)
Fixpoint proper_prefix (q p : path) : bool :=
  match q, p with
  | [], _ :: _ => true
  | d :: q', e :: p' => dir_eqb d e && proper_prefix q' p'
  | _, [] => false
  end.

(** The nodes of [plus t str] on the insertion path: those met by the descent
    of [str] in the new tree. *)
Definition on_insertion_path (t : TST) (str : list C) (q : path) : bool :=
  proper_prefix q (descent (plus t str) str).

(** The positions of the nodes of a tree, children before their parent, in
    the order left, center, right. *)
Fixpoint postorder (t : TST) : list path :=
  match t with
  | Empty => []
  | Node _ _ l c r =>
      map (cons to_left) (postorder l) ++
      map (cons to_center) (postorder c) ++
      map (cons to_right) (postorder r) ++ [[]]
  end.

(** [x] occurs before [y] in [l]. *)
Definition before {A : Type} (x y : A) (l : list A) : Prop :=
  exists l1 l2 l3, l = l1 ++ x :: l2 ++ y :: l3.

(** ** Trees the public interface can produce *)

Inductive constructible : TST -> Prop :=
| c_default : constructible Empty
| c_of_string (str : list C) : constructible (TST_of str)
| c_plus (t : TST) (str : list C) :
    constructible t -> constructible (plus t str)
| c_left v w l c r : constructible (Node v w l c r) -> constructible l
| c_center v w l c r : constructible (Node v w l c r) -> constructible c
| c_right v w l c r : constructible (Node v w l c r) -> constructible r.

(** No node holds the terminator, and a node that does not end a word has a
    center child. *)
Fixpoint live (t : TST) : bool :=
  match t with
  | Empty => true
  | Node v w l c r =>
      negb (v =? NUL) && (w || negb (empty c)) && live l && live c && live r
  end.

(** ** The specification's wording, for comparison *)

(** tree(S): empty if S is empty; otherwise a node holding S[0], with
    isWord = (S has length 1), no left or right child, and center tree(S[1:]). *)
Fixpoint spec_construct (S : list C) : TST :=
  match S with
  | [] => Empty
  | c :: S' => Node c (Nat.eqb (List.length S) 1) Empty (spec_construct S') Empty
  end.

(** The recursive contract of insertion, as a function of the sequence to
    insert: the tree unchanged for the empty sequence; tree(S) on the empty
    tree; otherwise the root rebuilt around the insertion into its right, left
    or center child, with isWord' = isWord OR (S has length 1) in the last
    case. *)
Fixpoint spec_insert (t : TST) (S : list C) {struct t} : TST :=
  match S with
  | [] => t
  | c :: S' =>
      match t with
      | Empty => spec_construct S
      | Node v w l m r =>
          if c >? v then Node v w l m (spec_insert r S)
          else if c <? v then Node v w (spec_insert l S) m r
          else Node v (w || Nat.eqb (List.length S) 1) l (spec_insert m S') r
      end
  end.

(** What the specification says prefix search reports when it stops: the
    parent at the point descent stopped, or self if still non-empty. *)
Definition spec_reported (self parent : TST) : TST :=
  if empty self then parent else self.

(** A sequence is stored in a tree when the search consumes all of it and ends
    on a word. *)
Definition stored (t : TST) (Q : list C) : Prop := exist t Q = true.

(** The number of symbols of [str] that prefix search matches in [t]. *)
Definition matched (t : TST) (str : list C) : nat :=
  fst (prefix_search t str 0%nat Empty).

(** The search for [q] from the state ([acc], [parent]) consumes all of [q]
    and reports a node that ends a word: what [exist] tests. *)
Definition found (t : TST) (q : list C) (acc : nat) (parent : TST) : Prop :=
  fst (prefix_search t q acc parent) = (acc + List.length q)%nat /\
  ends_word (snd (prefix_search t q acc parent)) = true.

(** [Q] is held by [t]: from any state the search consumes all of it and ends
    on a word. *)
Definition held (t : TST) (Q : list C) : Prop :=
  Q <> [] /\
  forall acc p,
    fst (prefix_search t Q acc p) = (acc + length Q)%nat /\
    ends_word (snd (prefix_search t Q acc p)) = true.

(** ** The store: nodes behind shared pointers *)

Module Store.

(** A [shared_ptr<Node>]: null or the address of a node. *)
Definition ptr := option nat.

Record node : Type := mkNode {
  n_value : C;
  n_word : bool;
  n_left : ptr;
  n_center : ptr;
  n_right : ptr
}.

(** The nodes allocated so far, by address.  Nodes are immutable: the only
    operation on the store is allocation. *)
Definition heap := list node.

(** [std::make_shared<Node>(...)]: a new node at a fresh address. *)
Definition make_shared (h : heap) (n : node) : heap * ptr :=
  (h ++ [n], Some (List.length h)).

(** [TST(const C *str)] *)
Fixpoint TST_of (h : heap) (str : list C) : heap * ptr :=
  match str with
  | [] => (h, None)
  | c :: s =>
      if c =? NUL then (h, None)
      else
        let '(h1, ctr) := TST_of h s in
        make_shared h1 (mkNode c (at_end s) None ctr None)
  end.

(** [operator+(const C *str)] on a root pointer.  [None]: the budget ran out,
    or the pointer is not an address of the store. *)
Fixpoint plus (fuel : nat) (h : heap) (p : ptr) (str : list C)
    : option (heap * ptr) :=
  match fuel with
  | O => None
  | S fuel =>
      if deref str =? NUL then Some (h, p)
      else
        match p with
        | None => Some (TST_of h str)
        | Some a =>
            match nth_error h a with
            | None => None
            | Some n =>
                if deref str >? n_value n then
                  match plus fuel h (n_right n) str with
                  | Some (h1, r') =>
                      Some (make_shared h1
                              (mkNode (n_value n) (n_word n) (n_left n)
                                      (n_center n) r'))
                  | None => None
                  end
                else if deref str <? n_value n then
                  match plus fuel h (n_left n) str with
                  | Some (h1, l') =>
                      Some (make_shared h1
                              (mkNode (n_value n) (n_word n) l'
                                      (n_center n) (n_right n)))
                  | None => None
                  end
                else
                  match plus fuel h (n_center n) (next str) with
                  | Some (h1, c') =>
                      Some (make_shared h1
                              (mkNode (deref str)
                                      (n_word n || at_end (next str))
                                      (n_left n) c' (n_right n)))
                  | None => None
                  end
            end
        end
  end.

(** The pointer [p] represents the tree [t] in the store [h]. *)
Inductive rep (h : heap) : ptr -> TST -> Prop :=
| rep_null : rep h None Empty
| rep_node a n l c r :
    nth_error h a = Some n ->
    rep h (n_left n) l -> rep h (n_center n) c -> rep h (n_right n) r ->
    rep h (Some a) (Node (n_value n) (n_word n) l c r).

(** The pointer found by following a path from [p]. *)
Fixpoint ptr_at (h : heap) (p : ptr) (q : path) : option ptr :=
  match q with
  | [] => Some p
  | d :: q' =>
      match p with
      | None => None
      | Some a =>
          match nth_error h a with
          | None => None
          | Some n =>
              ptr_at h (match d with
                        | to_left => n_left n
                        | to_center => n_center n
                        | to_right => n_right n
                        end) q'
          end
      end
  end.

(** How the tree at [p'] in [h'] sits on the tree at [p] in [h], given the
    insertion path [ins]: a position on the path holds a node allocated after
    [h]; any other position holds the very pointer that [p] has at this
    position in [h], or a null pointer where [p] has no such position. *)
Definition shares (h : heap) (p : ptr) (h' : heap) (p' : ptr) (ins : path)
    : Prop :=
  forall q x,
    ptr_at h' p' q = Some x ->
    if proper_prefix q ins
    then exists a, x = Some a /\ (List.length h <= a)%nat
    else ptr_at h p q = Some x \/ (x = None /\ ptr_at h p q = None).

End Store.

(** ** The scenario of the source's comment on [prefix] *)

Definition scenario : TST :=
  plus (plus (plus Empty (lit "category")) (lit "functor")) (lit "theory").

(** ** Invariants of the trees and of the store *)

(** [P] holds of every value met from [t] by left and right links only: the
    nodes that compete for one symbol position. *)
Fixpoint level_all (P : C -> bool) (t : TST) : bool :=
  match t with
  | Empty => true
  | Node v _ l _ r => P v && level_all P l && level_all P r
  end.

(** The ordering of a ternary search tree: at every node the values of the
    same position reached through [left] are smaller and those reached through
    [right] are greater. *)
Fixpoint ordered (t : TST) : bool :=
  match t with
  | Empty => true
  | Node v _ l c r =>
      level_all (fun x => x <? v) l && level_all (fun x => v <? x) r &&
      ordered l && ordered c && ordered r
  end.

Module StoreInv.

(** A pointer that is null or an address below [a]. *)
Definition below (a : nat) (p : Store.ptr) : bool :=
  match p with
  | None => true
  | Some b => Nat.ltb b a
  end.

(** Every node of the store, the first of them at address [a], points only
    to nodes at lower addresses. *)
Fixpoint acyclic_from (a : nat) (h : Store.heap) : bool :=
  match h with
  | [] => true
  | n :: h' =>
      below a (Store.n_left n) && below a (Store.n_center n) &&
      below a (Store.n_right n) && acyclic_from (S a) h'
  end.

(** No node reaches itself: children are older than their parent. *)
Definition acyclic (h : Store.heap) : bool := acyclic_from 0 h.

(** [p] is null or the address of a node of [h]. *)
Definition valid (h : Store.heap) (p : Store.ptr) : bool :=
  below (List.length h) p.

End StoreInv.

(** ** The words written in a tree *)

(** [n] is a node of the first symbol position of [t]: [t] itself, or a node
    reached from it by left and right links. *)
Inductive on_level : TST -> TST -> Prop :=
| level_here v w l c r : on_level (Node v w l c r) (Node v w l c r)
| level_left v w l c r n : on_level l n -> on_level (Node v w l c r) n
| level_right v w l c r n : on_level r n -> on_level (Node v w l c r) n.

(** [q] is written in [t]: its symbols label, one position after the other,
    nodes joined by center links, the last of them marked as a word.  No
    comparison guides the choice of the nodes. *)
Inductive spells : TST -> list C -> Prop :=
| spells_last t v l c r :
    on_level t (Node v true l c r) -> v <> NUL -> spells t [v]
| spells_more t v w l c r q :
    on_level t (Node v w l c r) -> v <> NUL -> spells c q ->
    spells t (v :: q).

(** * Properties *)

(** ** Buffers and the sequences they denote *)

Lemma deref_c_str (str : list C) : deref (c_str str) = deref str.
Proof.
  destruct str as [|c s]; simpl; trivial.
  destruct (c =? NUL) eqn:E; simpl; trivial.
  apply Z.eqb_eq in E. now rewrite E.
Qed.

Lemma at_end_c_str (str : list C) : at_end (c_str str) = at_end str.
Proof. unfold at_end. now rewrite deref_c_str. Qed.

Lemma next_c_str (str : list C) :
  (deref str =? NUL) = false -> next (c_str str) = c_str (next str).
Proof.
  destruct str as [|c s]; simpl; trivial.
  intros E. now rewrite E.
Qed.

Lemma at_end_nil_iff (str : list C) : at_end str = true <-> c_str str = [].
Proof.
  unfold at_end. destruct str as [|c s]; simpl.
  - split; trivial.
  - destruct (c =? NUL); split; trivial; discriminate.
Qed.

Lemma at_end_length (str : list C) :
  at_end str = Nat.eqb (length (c_str str)) 0.
Proof.
  unfold at_end. destruct str as [|c s]; simpl; trivial.
  now destruct (c =? NUL).
Qed.

Lemma nul_free_cons (x : C) (s : list C) :
  nul_free (x :: s) = true <-> (x =? NUL) = false /\ nul_free s = true.
Proof.
  unfold nul_free. simpl. rewrite andb_true_iff, negb_true_iff. tauto.
Qed.

Lemma c_str_nul_free (str : list C) : nul_free (c_str str) = true.
Proof.
  induction str as [|c s IH]; simpl; trivial.
  destruct (c =? NUL) eqn:E; simpl; trivial.
  now rewrite E, IH.
Qed.

Lemma c_str_id (s : list C) : nul_free s = true -> c_str s = s.
Proof.
  induction s as [|c s IH]; simpl; trivial.
  intros H. apply andb_true_iff in H. destruct H as [Hc Hs].
  apply negb_true_iff in Hc. rewrite Hc. now rewrite IH.
Qed.

Lemma c_str_idem (str : list C) : c_str (c_str str) = c_str str.
Proof. apply c_str_id, c_str_nul_free. Qed.

(** The constructor reads its argument as a C string. *)
Lemma TST_of_c_str (str : list C) : TST_of (c_str str) = TST_of str.
Proof.
  induction str as [|c s IH]; simpl; trivial.
  destruct (c =? NUL) eqn:E; simpl; trivial.
  now rewrite E, IH, at_end_c_str.
Qed.

(** The constructor builds the path the specification describes. *)
Lemma TST_of_spec (str : list C) : TST_of str = spec_construct (c_str str).
Proof.
  induction str as [|c s IH]; simpl; trivial.
  destruct (c =? NUL) eqn:E; trivial.
  cbn [spec_construct length]. rewrite IH, at_end_length.
  now destruct (length (c_str s)).
Qed.

(** Insertion reads its argument as a C string. *)
Lemma plus_c_str (t : TST) (str : list C) : plus t (c_str str) = plus t str.
Proof.
  revert str. induction t as [|v w l IHl c IHc r IHr]; intros str; simpl.
  - rewrite deref_c_str. destruct (deref str =? NUL); trivial.
    apply TST_of_c_str.
  - rewrite deref_c_str. destruct (deref str =? NUL) eqn:E; trivial.
    rewrite IHl, IHr, (next_c_str _ E), IHc, at_end_c_str. reflexivity.
Qed.

(** ** Insertion *)

Lemma c_str_cons (str : list C) :
  (deref str =? NUL) = false -> c_str str = deref str :: c_str (next str).
Proof.
  destruct str as [|c s]; simpl; intros E; [discriminate|].
  now rewrite E.
Qed.

Lemma plus_spec_insert (t : TST) (str : list C) :
  plus t str = spec_insert t (c_str str).
Proof.
  revert str. induction t as [|v w l IHl c IHc r IHr]; intros str.
  - simpl. destruct (deref str =? NUL) eqn:E.
    + assert (H : c_str str = []) by now apply at_end_nil_iff.
      now rewrite H.
    + rewrite (c_str_cons _ E), <- (c_str_cons _ E). apply TST_of_spec.
  - cbn [plus]. destruct (deref str =? NUL) eqn:E.
    + assert (H : c_str str = []) by now apply at_end_nil_iff.
      now rewrite H.
    + rewrite (c_str_cons _ E). cbn [spec_insert].
      rewrite <- (c_str_cons _ E), <- IHr, <- IHl, <- IHc.
      destruct (deref str >? v) eqn:G; trivial.
      destruct (deref str <? v) eqn:L; trivial.
      assert (deref str = v) by lia. subst v.
      rewrite at_end_length, (c_str_cons _ E). cbn [length].
      now destruct (length (c_str (next str))).
Qed.

(** C1. [operator+] computes the specification's recursive contract on the
    sequence S its argument denotes.  It returns the tree itself when S is
    empty and the path tree(S) when the tree is empty; otherwise, with c the
    first symbol of S and v the value of the root, it rebuilds the root with
    the insertion of S into the right child when c > v, into the left child
    when c < v, and for c = v with the insertion of the rest of S into the
    center child and the word flag or-ed with "S has length one". *)
Theorem plus_meets_contract (t : TST) (str : list C) :
  let S := c_str str in
  plus t str = spec_insert t S /\
  (S = [] -> plus t str = t) /\
  (S <> [] -> t = Empty -> plus t str = spec_construct S) /\
  (forall c S' v w l m r,
     S = c :: S' -> t = Node v w l m r ->
     (c > v -> plus t str = Node v w l m (plus r S)) /\
     (c < v -> plus t str = Node v w (plus l S) m r) /\
     (c = v ->
      plus t str = Node v (w || Nat.eqb (length S) 1) l (plus m S') r)).
Proof.
  intros S. assert (HS : nul_free S = true) by apply c_str_nul_free.
  split; [apply plus_spec_insert|]. rewrite plus_spec_insert. fold S.
  clearbody S. split; [|split].
  - intros ->. now destruct t.
  - intros Hne ->. destruct S; [easy|reflexivity].
  - intros c S' v w l m r E ->.
    rewrite !plus_spec_insert, (c_str_id S HS).
    assert (HS' : c_str S' = S').
    { apply c_str_id. rewrite E in HS. now apply nul_free_cons in HS. }
    rewrite HS', E. cbn [spec_insert].
    repeat split; intros H.
    + now replace (c >? v) with true by lia.
    + replace (c >? v) with false by lia.
      now replace (c <? v) with true by lia.
    + replace (c >? v) with false by lia.
      now replace (c <? v) with false by lia.
Qed.

(** ** Prefix search *)

Lemma prefix_search_at_end (t : TST) (str : list C) (acc : nat) (parent : TST) :
  at_end str = true -> prefix_search t str acc parent = (acc, parent).
Proof. intros E. destruct t; simpl; trivial. now rewrite E. Qed.

(** Past the root, the parent passed in no longer matters. *)
Lemma prefix_search_parent (t : TST) (str : list C) (acc : nat) (p p' : TST) :
  empty t = false -> at_end str = false ->
  prefix_search t str acc p = prefix_search t str acc p'.
Proof.
  destruct t; simpl; [discriminate|]. intros _ E. now rewrite E.
Qed.

Lemma prefix_search_bounds (t : TST) (str : list C) (acc : nat) (parent : TST) :
  (acc <= fst (prefix_search t str acc parent) <= acc + length str)%nat.
Proof.
  revert str acc parent.
  induction t as [|v w l IHl c IHc r IHr]; intros str acc parent; simpl.
  - lia.
  - destruct (at_end str) eqn:E; simpl; [lia|].
    destruct (v >? deref str); [apply IHl|].
    destruct (v <? deref str); [apply IHr|].
    destruct str as [|x s]; [discriminate|]. simpl next.
    specialize (IHc s (acc + 1)%nat (Node v w l c r)). simpl length. lia.
Qed.

Lemma prefix_search_cons v w l c r (x : C) (s : list C) (acc : nat) (p : TST) :
  (x =? NUL) = false ->
  prefix_search (Node v w l c r) (x :: s) acc p =
  if v >? x then prefix_search l (x :: s) acc (Node v w l c r)
  else if v <? x then prefix_search r (x :: s) acc (Node v w l c r)
  else prefix_search c s (acc + 1)%nat (Node v w l c r).
Proof. intros Hx. cbn [prefix_search]. unfold at_end. cbn [deref next]. now rewrite Hx. Qed.

Lemma plus_cons v w l c r (x : C) (s : list C) :
  (x =? NUL) = false ->
  plus (Node v w l c r) (x :: s) =
  if x >? v then Node v w l c (plus r (x :: s))
  else if x <? v then Node v w (plus l (x :: s)) c r
  else Node x (w || at_end s) l (plus c s) r.
Proof. intros Hx. cbn [plus deref next]. now rewrite Hx. Qed.

Lemma plus_at_end (t : TST) (str : list C) : at_end str = true -> plus t str = t.
Proof. unfold at_end. intros E. destruct t; simpl; now rewrite E. Qed.

Lemma plus_nil (t : TST) : plus t [] = t.
Proof. now destruct t. Qed.

Lemma exist_unfold (t : TST) (str : list C) :
  exist t str = true <->
  fst (prefix_search t str 0%nat Empty) = length str /\
  ends_word (snd (prefix_search t str 0%nat Empty)) = true.
Proof.
  unfold exist. destruct (prefix_search t str 0%nat Empty) as [n nd]; simpl.
  rewrite andb_true_iff, Nat.eqb_eq. tauto.
Qed.

(** C8 (as amended). Prefix search stops when the tree is empty or the query
    is exhausted and then reports the matched length so far together with the
    parent it was given, whether or not the current tree is empty; otherwise it
    goes left or right on a mismatch with the matched length unchanged, and
    into center on a match with one symbol consumed and the length incremented,
    each time passing the current tree as the parent. *)
Theorem prefix_search_reports_parent
    (t : TST) (str : list C) (acc : nat) (parent : TST) :
  (empty t = true \/ at_end str = true ->
   prefix_search t str acc parent = (acc, parent)) /\
  (forall v w l c r, t = Node v w l c r -> at_end str = false ->
     (deref str < v ->
      prefix_search t str acc parent = prefix_search l str acc t) /\
     (v < deref str ->
      prefix_search t str acc parent = prefix_search r str acc t) /\
     (deref str = v ->
      prefix_search t str acc parent =
      prefix_search c (next str) (S acc) t)).
Proof.
  split.
  - intros [H|H].
    + destruct t; [reflexivity|discriminate].
    + now apply prefix_search_at_end.
  - intros v w l c r -> E. cbn [prefix_search]. rewrite E.
    repeat split; intros H.
    + replace (v >? deref str) with true by lia. reflexivity.
    + replace (v >? deref str) with false by lia.
      replace (v <? deref str) with true by lia. reflexivity.
    + replace (v >? deref str) with false by lia.
      replace (v <? deref str) with false by lia.
      now rewrite Nat.add_1_r.
Qed.

(** The report the specification words for C8 ("or self if still non-empty")
    is not the one made: on the path "ab", the query "a" stops at the node of
    "b" with the query exhausted, and the root is reported, not that node. *)
Lemma prefix_search_does_not_report_self :
  let root := TST_of (lit "ab") in
  let self := TST_of (lit "b") in
  prefix_search root (lit "a") 0%nat Empty = prefix_search self [] 1%nat root /\
  empty self = false /\
  prefix_search self [] 1%nat root <> (1%nat, spec_reported self root).
Proof. vm_compute. repeat split; discriminate. Qed.

(** C10. The empty sequence is a member of no tree: the search stops at once
    and reports the empty parent it was started with; and inserting the empty
    sequence returns the tree itself. *)
Theorem exist_empty_sequence (t : TST) :
  prefix_search t [] 0%nat Empty = (0%nat, Empty) /\
  exist t [] = false /\
  plus t [] = t.
Proof.
  assert (H : prefix_search t [] 0%nat Empty = (0%nat, Empty))
    by now apply prefix_search_at_end.
  split; [exact H|]. split.
  - unfold exist. now rewrite H.
  - now destruct t.
Qed.

(** ** Membership after insertion *)

(** Searching the path of a sequence for that sequence ends on its last node. *)
Lemma prefix_search_TST_of (s : list C) (acc : nat) (p : TST) :
  nul_free s = true -> s <> [] ->
  fst (prefix_search (TST_of s) s acc p) = (acc + length s)%nat /\
  ends_word (snd (prefix_search (TST_of s) s acc p)) = true.
Proof.
  revert acc p. induction s as [|x s IH]; intros acc p Hs Hne; [easy|].
  apply nul_free_cons in Hs. destruct Hs as [Hx Hs].
  cbn [TST_of]. rewrite Hx, (prefix_search_cons _ _ _ _ _ _ _ _ _ Hx).
  rewrite Z.gtb_ltb, Z.ltb_irrefl.
  destruct s as [|y s'].
  - simpl. split; [lia|reflexivity].
  - destruct (IH (acc + 1)%nat (Node x (at_end (y :: s')) Empty
                                   (TST_of (y :: s')) Empty) Hs)
      as [H1 H2]; [easy|].
    split; [rewrite H1; simpl; lia | exact H2].
Qed.

(** After its insertion into any tree, a sequence is found. *)
Lemma prefix_search_plus_same (t : TST) (s : list C) (acc : nat) (p : TST) :
  nul_free s = true -> s <> [] ->
  fst (prefix_search (plus t s) s acc p) = (acc + length s)%nat /\
  ends_word (snd (prefix_search (plus t s) s acc p)) = true.
Proof.
  revert s acc p. induction t as [|v w l IHl c IHc r IHr]; intros s acc p Hs Hne.
  - destruct s as [|x s']; [easy|].
    destruct (proj1 (nul_free_cons _ _) Hs) as [Hx _].
    cbn [plus deref]. rewrite Hx. now apply prefix_search_TST_of.
  - destruct s as [|x s']; [easy|].
    destruct (proj1 (nul_free_cons _ _) Hs) as [Hx Hs'].
    rewrite (plus_cons _ _ _ _ _ _ _ Hx).
    destruct (x >? v) eqn:G.
    + rewrite (prefix_search_cons _ _ _ _ _ _ _ _ _ Hx).
      replace (v >? x) with false by lia. replace (v <? x) with true by lia.
      now apply IHr.
    + destruct (x <? v) eqn:L.
      * rewrite (prefix_search_cons _ _ _ _ _ _ _ _ _ Hx).
        replace (v >? x) with true by lia. now apply IHl.
      * rewrite (prefix_search_cons _ _ _ _ _ _ _ _ _ Hx).
        rewrite Z.gtb_ltb, Z.ltb_irrefl.
        destruct s' as [|y s''].
        -- rewrite plus_nil.
           rewrite prefix_search_at_end by reflexivity.
           simpl. rewrite orb_true_r. split; [lia|reflexivity].
        -- destruct (IHc (y :: s'') (acc + 1)%nat
                      (Node x (w || at_end (y :: s'')) l
                         (plus c (y :: s'')) r) Hs') as [H1 H2]; [easy|].
           split; [rewrite H1; simpl; lia | exact H2].
Qed.

(** After its insertion into any tree, a sequence without the terminator is a
    member. *)
Lemma exist_after_plus (t : TST) (S : list C) :
  S <> [] -> nul_free S = true -> exist (plus t S) S = true.
Proof.
  intros Hne Hs. apply exist_unfold.
  exact (prefix_search_plus_same t S 0%nat Empty Hs Hne).
Qed.

(** C2 (as amended). A non-empty sequence without the terminator symbol is a
    member of the tree obtained by inserting it into the empty tree. *)
Theorem exist_after_plus_empty (S : list C) :
  S <> [] -> nul_free S = true -> exist (plus Empty S) S = true.
Proof.
  intros Hne Hs. apply exist_unfold.
  exact (prefix_search_plus_same Empty S 0%nat Empty Hs Hne).
Qed.

Lemma exist_after_plus_empty_witness :
  exist (plus Empty (lit "tst")) (lit "tst") = true.
Proof.
  apply (exist_after_plus_empty (lit "tst")); [discriminate | reflexivity].
Defined.

(** A string with an embedded terminator is inserted up to the terminator but
    looked up with its full length: it is not found. *)
Lemma exist_after_plus_embedded_nul :
  let S := [97; 0; 98] in
  S <> [] /\ exist (plus Empty S) S = false.
Proof. split; [discriminate | reflexivity]. Qed.

(** Insertion keeps a successful search successful, whatever the parents. *)
Lemma prefix_search_plus_mono (t : TST) :
  forall (s q : list C) (acc : nat) (p p' : TST),
    fst (prefix_search t q acc p) = (acc + length q)%nat ->
    ends_word (snd (prefix_search t q acc p)) = true ->
    (ends_word p = true -> ends_word p' = true) ->
    fst (prefix_search (plus t s) q acc p') = (acc + length q)%nat /\
    ends_word (snd (prefix_search (plus t s) q acc p')) = true.
Proof.
  induction t as [|v w l IHl c IHc r IHr]; intros s q acc p p' Hn Hw Hp.
  - simpl in Hn, Hw. assert (q = []) by (destruct q; simpl in Hn; [easy|lia]).
    subst q. rewrite prefix_search_at_end by reflexivity. simpl.
    split; [lia|auto].
  - destruct (at_end q) eqn:E.
    + rewrite prefix_search_at_end in Hn, Hw by exact E. simpl in Hn, Hw.
      assert (q = []) by (destruct q; simpl in Hn; [easy|lia]).
      subst q. rewrite prefix_search_at_end by reflexivity. simpl.
      split; [lia|auto].
    + destruct q as [|x q']; [discriminate|]. unfold at_end in E. simpl in E.
      rewrite (prefix_search_cons _ _ _ _ _ _ _ _ _ E) in Hn, Hw.
      (* every rebuilt root has this shape *)
      assert (G : forall w' sl sc sr,
        let t' := Node v (w || w') (plus l sl) (plus c sc) (plus r sr) in
        fst (prefix_search t' (x :: q') acc p') =
          (acc + length (x :: q'))%nat /\
        ends_word (snd (prefix_search t' (x :: q') acc p')) = true).
      { intros w' sl sc sr t'. unfold t'.
        rewrite (prefix_search_cons _ _ _ _ _ _ _ _ _ E).
        assert (Hup : ends_word (Node v w l c r) = true -> ends_word t' = true).
        { unfold t', ends_word; simpl. intros ->. reflexivity. }
        destruct (v >? x); [now apply (IHl sl _ _ _ _ Hn Hw)|].
        destruct (v <? x); [now apply (IHr sr _ _ _ _ Hn Hw)|].
        replace (acc + length (x :: q'))%nat
          with (acc + 1 + length q')%nat in * by (simpl; lia).
        now apply (IHc sc _ _ _ _ Hn Hw). }
      cbn [plus]. destruct (deref s =? NUL) eqn:Es.
      * specialize (G false [] [] []). simpl in G.
        now rewrite orb_false_r, !plus_nil in G.
      * destruct (deref s >? v) eqn:Gt.
        { specialize (G false [] [] s). simpl in G.
          now rewrite orb_false_r, !plus_nil in G. }
        destruct (deref s <? v) eqn:L.
        { specialize (G false s [] []). simpl in G.
          now rewrite orb_false_r, !plus_nil in G. }
        assert (deref s = v) by lia. subst v.
        specialize (G (at_end (next s)) [] (next s) []). simpl in G.
        now rewrite !plus_nil in G.
Qed.

Lemma plus_keeps_members_aux (T : TST) (S Q : list C) :
  exist T Q = true -> exist (plus T S) Q = true.
Proof.
  intros H. apply exist_unfold in H. destruct H as [Hn Hw].
  apply exist_unfold.
  apply (prefix_search_plus_mono T S Q 0%nat Empty Empty); auto.
Qed.

(** C3. Insertion keeps every member: a sequence found in a tree is found in
    the tree after any insertion. *)
Theorem plus_keeps_members (T : TST) (S Q : list C) :
  exist T Q = true -> exist (plus T S) Q = true.
Proof. apply plus_keeps_members_aux. Qed.

Lemma plus_keeps_members_witness :
  let T := plus (plus Empty (lit "functor")) (lit "fun") in
  exist T (lit "fun") = true /\
  exist (plus T (lit "category")) (lit "fun") = true.
Proof.
  split; [reflexivity|].
  apply (plus_keeps_members _ (lit "category") (lit "fun")). reflexivity.
Defined.

(** ** The scenario of the source's comment *)

(** C9 (as amended). After inserting "category", "functor" and "theory" into
    the empty tree, "category" is a member, "cat" is not, the longest common
    prefix found for "catamorphism" is "cat", and the tree has 21 nodes: the
    three words start with different symbols and share no node. *)
Theorem scenario_results :
  exist scenario (lit "category") = true /\
  exist scenario (lit "cat") = false /\
  prefix scenario (lit "catamorphism") = lit "cat" /\
  size scenario = 21%nat.
Proof. vm_compute. repeat split. Qed.

(** The size is not the 11 of the specification. *)
Lemma scenario_size_is_not_11 :
  ~ (exist scenario (lit "category") = true /\
     exist scenario (lit "cat") = false /\
     prefix scenario (lit "catamorphism") = lit "cat" /\
     size scenario = 11%nat).
Proof. vm_compute. intros (_ & _ & _ & H). discriminate H. Qed.

(** ** Error behaviour *)

Lemma height_children v w l c r (fuel : nat) :
  (height (Node v w l c r) < S fuel)%nat ->
  (height l < fuel)%nat /\ (height c < fuel)%nat /\ (height r < fuel)%nat.
Proof. simpl. lia. Qed.

(** With a budget above the height of the tree, the insertion written with
    the throwing accessors returns, and returns the tree of [plus]. *)
Lemma checked_plus_returns (fuel : nat) :
  forall (t : TST) (str : list C),
    (height t < fuel)%nat -> Checked.plus fuel t str = Ret (plus t str).
Proof.
  induction fuel as [|fuel IH]; intros t str H; [lia|].
  destruct t as [|v w l c r].
  - simpl. now destruct (deref str =? NUL).
  - apply height_children in H. destruct H as (Hl & Hc & Hr).
    cbn [Checked.plus plus empty].
    destruct (deref str =? NUL); trivial.
    cbn [value word left center right assert_not_empty empty bind].
    destruct (deref str >? v).
    + now rewrite (IH r str Hr).
    + destruct (deref str <? v).
      * now rewrite (IH l str Hl).
      * now rewrite (IH c (next str) Hc).
Qed.

Lemma checked_prefix_search_returns (fuel : nat) :
  forall (t : TST) (str : list C) (acc : nat) (parent : TST),
    (height t < fuel)%nat ->
    Checked.prefix_search fuel t str acc parent =
    Ret (prefix_search t str acc parent).
Proof.
  induction fuel as [|fuel IH]; intros t str acc parent H; [lia|].
  destruct t as [|v w l c r].
  - reflexivity.
  - apply height_children in H. destruct H as (Hl & Hc & Hr).
    cbn [Checked.prefix_search prefix_search empty orb].
    destruct (at_end str); trivial.
    cbn [value word left center right assert_not_empty empty bind].
    destruct (v >? deref str); [now apply IH|].
    destruct (v <? deref str); now apply IH.
Qed.

Lemma checked_exist_returns (fuel : nat) (t : TST) (str : list C) :
  (height t < fuel)%nat -> Checked.exist fuel t str = Ret (exist t str).
Proof.
  intros H. unfold Checked.exist, exist.
  rewrite (checked_prefix_search_returns fuel t str _ _ H). cbn [bind].
  destruct (prefix_search t str 0%nat Empty) as [n node].
  destruct (Nat.eqb n (length str)); [|reflexivity].
  destruct node; reflexivity.
Qed.

Lemma checked_prefix_returns (fuel : nat) (t : TST) (str : list C) :
  (height t < fuel)%nat -> Checked.prefix fuel t str = Ret (prefix t str).
Proof.
  intros H. unfold Checked.prefix, prefix.
  now rewrite (checked_prefix_search_returns fuel t str _ _ H).
Qed.

Lemma checked_fold_returns {Acc : Type} (f : Acc -> TST -> Acc) (fuel : nat) :
  forall (t : TST) (acc : Acc),
    (height t < fuel)%nat ->
    Checked.fold fuel t acc (fun a x => Ret (f a x)) = Ret (fold t acc f).
Proof.
  induction fuel as [|fuel IH]; intros t acc H; [lia|].
  destruct t as [|v w l c r]; [reflexivity|].
  apply height_children in H. destruct H as (Hl & Hc & Hr).
  cbn [Checked.fold Checked.range_fold fold Detail.fold].
  rewrite (IH l acc Hl). cbn [bind]. rewrite (IH c _ Hc). cbn [bind].
  rewrite (IH r _ Hr). reflexivity.
Qed.

Lemma checked_size_returns (fuel : nat) (t : TST) :
  (height t < fuel)%nat -> Checked.size fuel t = Ret (size t).
Proof. apply (checked_fold_returns (fun acc _ => (acc + 1)%nat)). Qed.

(** C7. The five accessors throw the empty-tree error on the empty tree and
    return the field of the root on a non-empty one: the assertion throws
    exactly on the empty tree, so that no accessor ever reads a field through
    a null root.  Insertion, prefix search, [exist], [prefix], [fold] (with a
    functor that does not throw) and [size], written with the throwing
    accessors, return normally on every tree and string as soon as the
    recursion budget exceeds the height of the tree.
    ([empty] and the constructors call no accessor: they are the total
    functions [empty] and [TST_of].) *)
Theorem only_accessors_throw (t : TST) (str : list C) :
  (empty t = true ->
   value t = EmptyTreeError /\ word t = EmptyTreeError /\
   left t = EmptyTreeError /\ center t = EmptyTreeError /\
   right t = EmptyTreeError) /\
  (empty t = false ->
   exists v w l c r,
     t = Node v w l c r /\
     value t = Ret v /\ word t = Ret w /\
     left t = Ret l /\ center t = Ret c /\ right t = Ret r) /\
  (assert_not_empty t = EmptyTreeError <-> empty t = true) /\
  (assert_not_empty t = Ret tt <-> empty t = false) /\
  (value t <> NullDereference /\ word t <> NullDereference /\
   left t <> NullDereference /\ center t <> NullDereference /\
   right t <> NullDereference) /\
  (forall fuel, (height t < fuel)%nat ->
     Checked.plus fuel t str = Ret (plus t str) /\
     Checked.exist fuel t str = Ret (exist t str) /\
     Checked.prefix fuel t str = Ret (prefix t str) /\
     Checked.size fuel t = Ret (size t) /\
     (forall acc parent,
        Checked.prefix_search fuel t str acc parent =
        Ret (prefix_search t str acc parent)) /\
     (forall (Acc : Type) (f : Acc -> TST -> Acc) (acc : Acc),
        Checked.fold fuel t acc (fun a x => Ret (f a x)) =
        Ret (fold t acc f))).
Proof.
  split; [|split; [|split; [|split; [|split]]]].
  - destruct t; [intros _|discriminate]. repeat split.
  - destruct t as [|v w l c r]; [discriminate|intros _].
    exists v, w, l, c, r. repeat split.
  - destruct t; simpl; split; trivial; discriminate.
  - destruct t; simpl; split; trivial; discriminate.
  - destruct t; repeat split; discriminate.
  - intros fuel H. repeat split.
    + now apply checked_plus_returns.
    + now apply checked_exist_returns.
    + now apply checked_prefix_returns.
    + now apply checked_size_returns.
    + intros. now apply checked_prefix_search_returns.
    + intros. now apply checked_fold_returns.
Qed.

(** ** Fold *)

Lemma range_fold_app {A Acc : Type} (f : Acc -> A -> Acc) (l1 l2 : list A) :
  forall acc,
    Detail.fold (l1 ++ l2) acc f = Detail.fold l2 (Detail.fold l1 acc f) f.
Proof. induction l1 as [|x l1 IH]; intros acc; simpl; [reflexivity|apply IH]. Qed.

Lemma range_fold_map {A B Acc : Type} (g : A -> B) (f : Acc -> B -> Acc)
    (l : list A) :
  forall acc,
    Detail.fold (map g l) acc f = Detail.fold l acc (fun a x => f a (g x)).
Proof. induction l as [|x l IH]; intros acc; simpl; [reflexivity|apply IH]. Qed.

Lemma range_fold_ext {A Acc : Type} (f g : Acc -> A -> Acc) (l : list A) :
  (forall a x, f a x = g a x) ->
  forall acc, Detail.fold l acc f = Detail.fold l acc g.
Proof.
  intros E. induction l as [|x l IH]; intros acc; simpl; [reflexivity|].
  now rewrite E, IH.
Qed.

Lemma fold_node {Acc : Type} v w l c r (acc : Acc) (f : Acc -> TST -> Acc) :
  fold (Node v w l c r) acc f =
  f (fold r (fold c (fold l acc f) f) f) (Node v w l c r).
Proof. reflexivity. Qed.

(** Folding is reducing over the positions of the nodes in post-order. *)
Lemma fold_postorder {Acc : Type} (f : Acc -> TST -> Acc) (t : TST) :
  forall acc,
    fold t acc f = Detail.fold (postorder t) acc (fun a q => f a (sub t q)).
Proof.
  induction t as [|v w l IHl c IHc r IHr]; intros acc; [reflexivity|].
  rewrite fold_node. cbn [postorder].
  rewrite !range_fold_app, !range_fold_map. cbn [Detail.fold].
  unfold sub at 1. cbn [subtree_at]. f_equal.
  rewrite IHl, IHc, IHr. reflexivity.
Qed.

Lemma in_postorder (t : TST) (q : path) :
  In q (postorder t) <-> empty (sub t q) = false.
Proof.
  revert q. induction t as [|v w l IHl c IHc r IHr]; intros q.
  - simpl. unfold sub. destruct q; simpl; split; easy.
  - cbn [postorder]. rewrite !in_app_iff, !in_map_iff.
    destruct q as [|d q'].
    + unfold sub; simpl. split; [reflexivity|]. intros _.
      right; right; right. now left.
    + unfold sub. cbn [subtree_at]. fold (sub l q') (sub c q') (sub r q').
      split.
      * intros [(x & E & H)|[(x & E & H)|[(x & E & H)|[E|[]]]]];
          try discriminate; injection E as <- <-.
        -- now apply IHl.
        -- now apply IHc.
        -- now apply IHr.
      * intros H. destruct d.
        -- left. exists q'. split; [reflexivity|]. now apply IHl.
        -- right; left. exists q'. split; [reflexivity|]. now apply IHc.
        -- right; right; left. exists q'. split; [reflexivity|]. now apply IHr.
Qed.

Lemma NoDup_map_cons (d : dir) (ps : list path) :
  NoDup ps -> NoDup (map (cons d) ps).
Proof.
  induction 1 as [|p ps Hp Hps IH]; simpl; constructor; auto.
  intros H. apply in_map_iff in H. destruct H as (y & E & Hy).
  injection E as ->. contradiction.
Qed.

Lemma postorder_NoDup (t : TST) : NoDup (postorder t).
Proof.
  induction t as [|v w l IHl c IHc r IHr]; [constructor|].
  cbn [postorder].
  repeat apply NoDup_app; auto using NoDup_map_cons.
  - repeat constructor. intros [].
  - intros a Ha [Hb|[]]. subst a. apply in_map_iff in Ha.
    destruct Ha as (x & E & _). discriminate.
  - intros a Ha Hb. apply in_map_iff in Ha. destruct Ha as (x & <- & _).
    apply in_app_iff in Hb. destruct Hb as [Hb|[Hb|[]]]; [|discriminate].
    apply in_map_iff in Hb. destruct Hb as (y & E & _). discriminate.
  - intros a Ha Hb. apply in_map_iff in Ha. destruct Ha as (x & <- & _).
    rewrite !in_app_iff in Hb. destruct Hb as [Hb|[Hb|[Hb|[]]]];
      try discriminate; apply in_map_iff in Hb;
      destruct Hb as (y & E & _); discriminate.
Qed.

Lemma postorder_length (t : TST) : length (postorder t) = size t.
Proof.
  unfold size. rewrite fold_postorder.
  generalize (postorder t). intros ps.
  assert (G : forall n, Detail.fold ps n (fun acc (_ : path) => (acc + 1)%nat)
                        = (n + length ps)%nat).
  { induction ps as [|p ps IH]; intros n; simpl; [lia|]. rewrite IH. lia. }
  now rewrite G.
Qed.

Lemma before_map {A B : Type} (g : A -> B) (x y : A) (l : list A) :
  before x y l -> before (g x) (g y) (map g l).
Proof.
  intros (l1 & l2 & l3 & ->).
  exists (map g l1), (map g l2), (map g l3).
  now rewrite map_app, map_cons, map_app, map_cons.
Qed.

Lemma before_app_l {A : Type} (x y : A) (l k : list A) :
  before x y l -> before x y (l ++ k).
Proof.
  intros (l1 & l2 & l3 & ->). exists l1, l2, (l3 ++ k).
  now rewrite <- !app_assoc, <- !app_comm_cons, <- app_assoc.
Qed.

Lemma before_app_r {A : Type} (x y : A) (l k : list A) :
  before x y l -> before x y (k ++ l).
Proof.
  intros (l1 & l2 & l3 & ->). exists (k ++ l1), l2, l3.
  now rewrite <- app_assoc.
Qed.

Lemma before_last {A : Type} (x y : A) (l : list A) :
  In x l -> before x y (l ++ [y]).
Proof.
  intros H. apply in_split in H. destruct H as (l1 & l2 & ->).
  exists l1, l2, []. now rewrite <- app_assoc.
Qed.

(** In the post-order of a tree every node comes after all the nodes below
    it. *)
Lemma postorder_children_first (t : TST) :
  forall q q',
    In q (postorder t) -> In q' (postorder t) -> proper_prefix q q' = true ->
    before q' q (postorder t).
Proof.
  induction t as [|v w l IHl c IHc r IHr]; intros q q' Hq Hq' Hp; [easy|].
  cbn [postorder] in *.
  destruct q' as [|d' q1']; [now destruct q|].
  destruct q as [|d q1].
  - rewrite !app_assoc. apply before_last.
    rewrite <- !app_assoc.
    rewrite !in_app_iff in Hq'. rewrite !in_app_iff.
    destruct Hq' as [H|[H|[H|[H|[]]]]]; auto. discriminate.
  - simpl in Hp. apply andb_true_iff in Hp. destruct Hp as [Hd Hp].
    assert (d = d') by (destruct d, d'; easy). subst d'.
    rewrite !in_app_iff, !in_map_iff in Hq, Hq'.
    assert (Hin : forall e (ps : list path) (x : path),
               (exists y, e :: y = d :: x /\ In y ps) -> e = d /\ In x ps).
    { intros e ps x (y & E & H). injection E as -> ->. now split. }
    destruct d.
    + apply before_app_l, before_map, IHl; trivial.
      * destruct Hq as [H|[H|[H|[H|[]]]]]; try discriminate;
          apply Hin in H; destruct H; easy.
      * destruct Hq' as [H|[H|[H|[H|[]]]]]; try discriminate;
          apply Hin in H; destruct H; easy.
    + apply before_app_r, before_app_l, before_map, IHc; trivial.
      * destruct Hq as [H|[H|[H|[H|[]]]]]; try discriminate;
          apply Hin in H; destruct H; easy.
      * destruct Hq' as [H|[H|[H|[H|[]]]]]; try discriminate;
          apply Hin in H; destruct H; easy.
    + apply before_app_r, before_app_r, before_app_l, before_map, IHr; trivial.
      * destruct Hq as [H|[H|[H|[H|[]]]]]; try discriminate;
          apply Hin in H; destruct H; easy.
      * destruct Hq' as [H|[H|[H|[H|[]]]]]; try discriminate;
          apply Hin in H; destruct H; easy.
Qed.

(** C6. [fold] returns the accumulator on the empty tree; on a node it reduces
    the accumulator over the children left, center, right in this order with
    [fold] itself and then applies the functor to the result and the node's own
    tree.  So it is the reduction over the node positions in post-order: every
    node position occurs there exactly once, as many as [size] counts, and
    after all the positions below it. *)
Theorem fold_visits_in_postorder
    (Acc : Type) (t : TST) (acc : Acc) (functor : Acc -> TST -> Acc) :
  fold Empty acc functor = acc /\
  (forall v w l c r,
     fold (Node v w l c r) acc functor =
     functor (Detail.fold [l; c; r] acc (fun a t' => fold t' a functor))
             (Node v w l c r)) /\
  fold t acc functor =
    Detail.fold (postorder t) acc (fun a q => functor a (sub t q)) /\
  NoDup (postorder t) /\
  (forall q, In q (postorder t) <-> empty (sub t q) = false) /\
  length (postorder t) = size t /\
  (forall q q',
     In q (postorder t) -> In q' (postorder t) -> proper_prefix q q' = true ->
     before q' q (postorder t)).
Proof.
  repeat split.
  - apply fold_postorder.
  - apply postorder_NoDup.
  - now apply in_postorder.
  - now apply in_postorder.
  - apply postorder_length.
  - apply postorder_children_first.
Qed.

(** ** Trees of the public interface *)

Lemma plus_not_empty (t : TST) (str : list C) :
  at_end str = false -> empty (plus t str) = false.
Proof.
  unfold at_end. intros E. destruct t as [|v w l c r]; simpl; rewrite E.
  - destruct str as [|x s]; [discriminate|]. simpl in *. now rewrite E.
  - destruct (deref str >? v); [reflexivity|].
    now destruct (deref str <? v).
Qed.

Lemma live_TST_of (str : list C) : live (TST_of str) = true.
Proof.
  induction str as [|x s IH]; [reflexivity|]. simpl.
  destruct (x =? NUL) eqn:E; [reflexivity|]. simpl. rewrite E, IH. simpl.
  rewrite andb_true_r. destruct (at_end s) eqn:Es; [reflexivity|].
  destruct s as [|y s']; [discriminate|]. unfold at_end in Es. simpl in *.
  now rewrite Es.
Qed.

Lemma live_plus (t : TST) :
  forall str, live t = true -> live (plus t str) = true.
Proof.
  induction t as [|v w l IHl c IHc r IHr]; intros str H; simpl.
  - destruct (deref str =? NUL); [reflexivity|apply live_TST_of].
  - destruct (deref str =? NUL) eqn:E; [exact H|].
    simpl in H. rewrite !andb_true_iff in H.
    destruct H as ((((Hv & Hw) & Hl) & Hc) & Hr).
    destruct (deref str >? v) eqn:G.
    { simpl. rewrite Hv, Hw, Hl, Hc. now rewrite IHr. }
    destruct (deref str <? v) eqn:L.
    { simpl. rewrite Hv, Hw, Hc, Hr. now rewrite IHl. }
    simpl. rewrite E, Hl, Hr, (IHc _ Hc). simpl. rewrite !andb_true_r.
    destruct (at_end (next str)) eqn:En; [now rewrite orb_true_r|].
    rewrite (plus_not_empty _ _ En). simpl. apply orb_true_r.
Qed.

(** Every tree of the public interface is live. *)
Lemma constructible_live (t : TST) : constructible t -> live t = true.
Proof.
  induction 1 as [ | str | t str _ IH
                 | v w l c r _ IH | v w l c r _ IH | v w l c r _ IH ].
  - reflexivity.
  - apply live_TST_of.
  - now apply live_plus.
  - simpl in IH. rewrite !andb_true_iff in IH. tauto.
  - simpl in IH. rewrite !andb_true_iff in IH. tauto.
  - simpl in IH. rewrite !andb_true_iff in IH. tauto.
Qed.

(** ** Longest shared prefix *)

(** The search follows a sequence that the tree holds at least as far as the
    query agrees with it. *)
Lemma prefix_search_follows (t : TST) :
  forall (q s : list C) (acc : nat) (p p' : TST) (n : nat),
    fst (prefix_search t q acc p) = (acc + length q)%nat ->
    (n <= length q)%nat -> (n <= length s)%nat ->
    firstn n q = firstn n s ->
    (acc + n <= fst (prefix_search t s acc p'))%nat.
Proof.
  induction t as [|v w l IHl c IHc r IHr]; intros q s acc p p' n Hq Hnq Hns E.
  - simpl in *. lia.
  - destruct n as [|n].
    { pose proof (prefix_search_bounds (Node v w l c r) s acc p'). lia. }
    destruct q as [|x q]; [simpl in Hnq; lia|].
    destruct s as [|y s]; [simpl in Hns; lia|].
    simpl in E. injection E as <- E. simpl in Hnq, Hns.
    destruct (x =? NUL) eqn:Ex.
    { rewrite prefix_search_at_end in Hq by (unfold at_end; simpl; exact Ex).
      simpl in Hq. lia. }
    rewrite (prefix_search_cons _ _ _ _ _ _ _ _ _ Ex) in Hq.
    rewrite (prefix_search_cons _ _ _ _ _ _ _ _ _ Ex).
    destruct (v >? x).
    { apply (IHl (x :: q) _ _ _ _ _ Hq); simpl; try lia. now rewrite E. }
    destruct (v <? x).
    { apply (IHr (x :: q) _ _ _ _ _ Hq); simpl; try lia. now rewrite E. }
    replace (acc + S n)%nat with (acc + 1 + n)%nat by lia.
    apply (IHc q s _ (Node v w l c r)); trivial; try lia.
    rewrite Hq. simpl. lia.
Qed.

(** A live node starts a stored sequence: follow the center links down to the
    first word. *)
Lemma live_holds_word (t : TST) :
  empty t = false -> live t = true -> exists Q, held t Q.
Proof.
  induction t as [|v w l _ c IHc r _]; intros Hne H; [discriminate|].
  simpl in H. rewrite !andb_true_iff in H.
  destruct H as ((((Hv & Hw) & _) & Hc) & _).
  apply negb_true_iff in Hv.
  destruct w.
  - exists [v]. split; [discriminate|]. intros acc p.
    rewrite (prefix_search_cons _ _ _ _ _ _ _ _ _ Hv).
    rewrite Z.gtb_ltb, Z.ltb_irrefl.
    rewrite prefix_search_at_end by reflexivity. simpl. split; [lia|reflexivity].
  - simpl in Hw. apply negb_true_iff in Hw.
    destruct (IHc Hw Hc) as (Q & HQ & HQs).
    exists (v :: Q). split; [discriminate|]. intros acc p.
    rewrite (prefix_search_cons _ _ _ _ _ _ _ _ _ Hv).
    rewrite Z.gtb_ltb, Z.ltb_irrefl.
    destruct (HQs (acc + 1)%nat (Node v false l c r)) as [H1 H2].
    split; [rewrite H1; simpl; lia | exact H2].
Qed.

Lemma prefix_search_shift (t : TST) :
  forall (s : list C) (acc : nat) (p p' : TST),
    fst (prefix_search t s acc p) = (acc + fst (prefix_search t s 0%nat p'))%nat.
Proof.
  induction t as [|v w l IHl c IHc r IHr]; intros s acc p p'; simpl.
  - lia.
  - destruct (at_end s); simpl; [lia|].
    destruct (v >? deref s); [apply IHl|].
    destruct (v <? deref s); [apply IHr|].
    rewrite (IHc _ (acc + 1)%nat _ Empty), (IHc _ 1%nat _ Empty). lia.
Qed.

Lemma matched_cons v w l c r (x : C) (s : list C) :
  (x =? NUL) = false ->
  matched (Node v w l c r) (x :: s) =
  if v >? x then matched l (x :: s)
  else if v <? x then matched r (x :: s)
  else S (matched c s).
Proof.
  intros Hx. unfold matched. rewrite (prefix_search_cons _ _ _ _ _ _ _ _ _ Hx).
  destruct (v >? x); [apply (prefix_search_shift l _ 0%nat)|].
  destruct (v <? x); [apply (prefix_search_shift r _ 0%nat)|].
  now rewrite (prefix_search_shift c _ 1%nat _ Empty).
Qed.

Lemma held_stored (t : TST) (Q : list C) : held t Q -> stored t Q.
Proof. intros [_ H]. apply exist_unfold. apply (H 0%nat Empty). Qed.

Lemma held_cons v w l c r (x : C) (Q : list C) :
  (x =? NUL) = false ->
  (if v >? x then held l (x :: Q)
   else if v <? x then held r (x :: Q)
   else (Q = [] /\ w = true) \/ held c Q) ->
  held (Node v w l c r) (x :: Q).
Proof.
  intros Hx H. split; [discriminate|]. intros acc p.
  rewrite (prefix_search_cons _ _ _ _ _ _ _ _ _ Hx).
  destruct (v >? x); [apply H|].
  destruct (v <? x); [apply H|].
  destruct H as [[-> ->]|[_ H]].
  - rewrite prefix_search_at_end by reflexivity. simpl. split; [lia|reflexivity].
  - destruct (H (acc + 1)%nat (Node v w l c r)) as [H1 H2].
    split; [rewrite H1; simpl; lia | exact H2].
Qed.

(** A live tree holds a sequence that agrees with the query on all the
    symbols the search matches. *)
Lemma live_holds_matched (t : TST) :
  empty t = false -> live t = true ->
  forall s, exists Q,
    held t Q /\ (matched t s <= length Q)%nat /\
    firstn (matched t s) Q = firstn (matched t s) s.
Proof.
  induction t as [|v w l IHl c IHc r IHr]; intros Hne H s; [discriminate|].
  destruct (live_holds_word _ Hne H) as (Q0 & HQ0).
  assert (Zero : forall n, n = 0%nat ->
            exists Q, held (Node v w l c r) Q /\
              (n <= length Q)%nat /\ firstn n Q = firstn n s).
  { intros n ->. exists Q0. split; [exact HQ0|]. split; [lia|reflexivity]. }
  destruct (at_end s) eqn:Es.
  { apply Zero. unfold matched. now rewrite prefix_search_at_end. }
  destruct s as [|x s]; [discriminate|]. unfold at_end in Es. simpl in Es.
  simpl in H. rewrite !andb_true_iff in H.
  destruct H as ((((Hv & Hw) & Hl) & Hc) & Hr).
  rewrite (matched_cons _ _ _ _ _ _ _ Es).
  destruct (v >? x) eqn:G; [|destruct (v <? x) eqn:L].
  - destruct (matched l (x :: s)) as [|k] eqn:M; [now apply Zero|].
    assert (El : empty l = false) by (destruct l; [discriminate M|reflexivity]).
    destruct (IHl El Hl (x :: s)) as (Q & HQ & Hlen & Hfst).
    rewrite M in Hlen, Hfst.
    destruct Q as [|y Q]; [simpl in Hlen; lia|].
    simpl in Hfst. injection Hfst as -> Hfst.
    exists (x :: Q). split; [|split; [exact Hlen|simpl; now rewrite Hfst]].
    apply held_cons; [exact Es|]. now rewrite G.
  - destruct (matched r (x :: s)) as [|k] eqn:M; [now apply Zero|].
    assert (Er : empty r = false) by (destruct r; [discriminate M|reflexivity]).
    destruct (IHr Er Hr (x :: s)) as (Q & HQ & Hlen & Hfst).
    rewrite M in Hlen, Hfst.
    destruct Q as [|y Q]; [simpl in Hlen; lia|].
    simpl in Hfst. injection Hfst as -> Hfst.
    exists (x :: Q). split; [|split; [exact Hlen|simpl; now rewrite Hfst]].
    apply held_cons; [exact Es|]. now rewrite G, L.
  - assert (v = x) by lia. subst v.
    destruct c as [|cv cw cl cc cr] eqn:Ec.
    + destruct w; [|discriminate].
      exists [x]. unfold matched. simpl.
      split; [|split; [lia|reflexivity]].
      apply held_cons; [exact Es|]. rewrite G, L. now left.
    + destruct (IHc eq_refl Hc s) as (Q & HQ & Hlen & Hfst).
      exists (x :: Q). split; [|split; [simpl; lia|simpl; now rewrite Hfst]].
      apply held_cons; [exact Es|]. rewrite G, L. now right.
Qed.

Lemma prefix_length (T : TST) (S : list C) :
  length (prefix T S) = matched T S.
Proof.
  unfold prefix. fold (matched T S). rewrite length_firstn.
  pose proof (prefix_search_bounds T S 0%nat Empty) as B.
  fold (matched T S) in B. lia.
Qed.

(** No stored sequence agrees with the query beyond the matched length. *)
Lemma matched_upper_bound (T : TST) (S Q : list C) (n : nat) :
  stored T Q -> (n <= length Q)%nat -> (n <= length S)%nat ->
  firstn n Q = firstn n S -> (n <= matched T S)%nat.
Proof.
  intros HQ Hn1 Hn2 E. apply exist_unfold in HQ. destruct HQ as [HQ _].
  apply (prefix_search_follows T Q S 0%nat Empty Empty n); trivial.
Qed.

(** C4. On every tree of the public interface, [prefix] returns a prefix of
    its argument whose length is the number of matched symbols; no stored
    sequence agrees with the argument on more symbols than that; and when the
    tree is not empty some stored sequence agrees with it on that many (on the
    empty tree, which stores nothing, the prefix is empty). *)
Theorem prefix_is_longest_shared_prefix (T : TST) (S : list C) :
  constructible T ->
  let L := length (prefix T S) in
  (exists rest, S = prefix T S ++ rest) /\
  L = matched T S /\
  (forall Q n,
     stored T Q -> (n <= length Q)%nat -> (n <= length S)%nat ->
     firstn n Q = firstn n S -> (n <= L)%nat) /\
  (empty T = false ->
   exists Q, stored T Q /\ (L <= length Q)%nat /\ firstn L Q = firstn L S) /\
  (empty T = true -> L = 0%nat).
Proof.
  intros HT L.
  assert (HL : L = matched T S) by apply prefix_length.
  split; [|split; [exact HL|split; [|split]]].
  - exists (skipn (matched T S) S). unfold prefix. fold (matched T S).
    symmetry. apply firstn_skipn.
  - intros Q n HQ Hn1 Hn2 E. rewrite HL.
    now apply (matched_upper_bound T S Q n).
  - intros Hne. rewrite HL.
    destruct (live_holds_matched T Hne (constructible_live T HT) S)
      as (Q & HQ & Hlen & Hfst).
    exists Q. split; [now apply held_stored|]. now split.
  - intros He. rewrite HL. destruct T; [reflexivity|discriminate].
Qed.

Lemma prefix_is_longest_shared_prefix_witness :
  let T := scenario in
  let S := lit "catamorphism" in
  let L := length (prefix T S) in
  (exists rest, S = prefix T S ++ rest) /\
  L = matched T S /\
  (forall Q n,
     stored T Q -> (n <= length Q)%nat -> (n <= length S)%nat ->
     firstn n Q = firstn n S -> (n <= L)%nat) /\
  (empty T = false ->
   exists Q, stored T Q /\ (L <= length Q)%nat /\ firstn L Q = firstn L S) /\
  (empty T = true -> L = 0%nat).
Proof.
  apply (prefix_is_longest_shared_prefix scenario (lit "catamorphism")).
  unfold scenario. repeat apply c_plus. apply c_default.
Defined.

(** ** What a tree stores *)

Lemma exist_found (t : TST) (q : list C) :
  exist t q = true <-> found t q 0%nat Empty.
Proof. apply exist_unfold. Qed.

Lemma found_stop (q : list C) (acc : nat) (p : TST) :
  found Empty q acc p -> q = [] /\ ends_word p = true.
Proof.
  intros [Hn Hw]. simpl in Hn, Hw.
  split; [destruct q; simpl in Hn; [easy|lia]|easy].
Qed.

Lemma found_stop_cons (y : C) (q : list C) (acc : nat) (p : TST) :
  ~ found Empty (y :: q) acc p.
Proof. intros H. apply found_stop in H. now destruct H. Qed.

Lemma found_at_end (t : TST) (q : list C) (acc : nat) (p : TST) :
  at_end q = true -> found t q acc p -> q = [] /\ ends_word p = true.
Proof.
  intros E [Hn Hw]. rewrite prefix_search_at_end in Hn, Hw by exact E.
  simpl in Hn, Hw. split; [destruct q; simpl in Hn; [easy|lia]|easy].
Qed.

Lemma found_nil (t : TST) (acc : nat) (p : TST) :
  ends_word p = true -> found t [] acc p.
Proof.
  intros H. unfold found. rewrite prefix_search_at_end by reflexivity.
  simpl. split; [lia|exact H].
Qed.

(** While symbols remain, the parent passed in does not matter. *)
Lemma found_side (t : TST) (q : list C) (acc : nat) (p p' : TST) :
  at_end q = false -> found t q acc p' -> found t q acc p.
Proof.
  intros E H. destruct t as [|v w l c r].
  - apply found_stop in H. destruct H as [-> _]. discriminate.
  - unfold found in *.
    now rewrite (prefix_search_parent _ _ _ p p') by easy.
Qed.

Lemma found_parent (t : TST) (q : list C) (acc : nat) (p p' : TST) :
  (ends_word p' = true -> ends_word p = true) ->
  found t q acc p' -> found t q acc p.
Proof.
  intros Hp H. destruct (at_end q) eqn:E.
  - destruct (found_at_end _ _ _ _ E H) as [-> Hw]. apply found_nil. auto.
  - now apply (found_side _ _ _ _ p').
Qed.

Lemma found_cons v w l c r (x : C) (q : list C) (acc : nat) (p : TST) :
  (x =? NUL) = false ->
  found (Node v w l c r) (x :: q) acc p <->
  if v >? x then found l (x :: q) acc (Node v w l c r)
  else if v <? x then found r (x :: q) acc (Node v w l c r)
  else found c q (acc + 1)%nat (Node v w l c r).
Proof.
  intros Hx. unfold found. rewrite (prefix_search_cons _ _ _ _ _ _ _ _ _ Hx).
  destruct (v >? x); [reflexivity|]. destruct (v <? x); [reflexivity|].
  replace (acc + length (x :: q))%nat with (acc + 1 + length q)%nat
    by (simpl; lia).
  reflexivity.
Qed.

(** On the path of [s] only [s] itself is found. *)
Lemma found_TST_of_only (s : list C) :
  forall (q : list C) (acc : nat) (p : TST),
    found (TST_of s) q acc p ->
    q = c_str s \/ (q = [] /\ ends_word p = true).
Proof.
  induction s as [|x s IH]; intros q acc p H.
  - right. now apply found_stop in H.
  - cbn [TST_of c_str] in *. destruct (x =? NUL) eqn:Ex.
    { right. now apply found_stop in H. }
    destruct (at_end q) eqn:Eq.
    { right. now apply (found_at_end _ _ _ _ Eq H). }
    destruct q as [|y q]; [discriminate|]. unfold at_end in Eq. simpl in Eq.
    apply (found_cons _ _ _ _ _ _ _ _ _ Eq) in H.
    destruct (x >? y) eqn:G; [now apply found_stop_cons in H|].
    destruct (x <? y) eqn:L; [now apply found_stop_cons in H|].
    assert (x = y) by lia. subst y. left.
    destruct (IH q _ _ H) as [->|[-> Hp]]; [reflexivity|].
    unfold ends_word in Hp. simpl in Hp.
    apply at_end_nil_iff in Hp. now rewrite Hp.
Qed.

(** A search that succeeds after an insertion succeeded before it, unless it
    is the search for the inserted sequence. *)
Lemma found_plus_only (t : TST) :
  forall (s q : list C) (acc : nat) (p p' : TST),
    (ends_word p' = true -> ends_word p = true \/ at_end s = true) ->
    found (plus t s) q acc p' ->
    found t q acc p \/ q = c_str s.
Proof.
  assert (Stop : forall (u : TST) s acc (p p' : TST),
            (ends_word p' = true -> ends_word p = true \/ at_end s = true) ->
            ends_word p' = true -> found u [] acc p \/ [] = c_str s).
  { intros u s acc p p' Hp Hw.
    destruct (Hp Hw) as [H|H]; [left; now apply found_nil|right].
    symmetry. now apply at_end_nil_iff. }
  induction t as [|v w l IHl c IHc r IHr]; intros s q acc p p' Hp H.
  - destruct (sumbool_of_bool (at_end s)) as [Es|Es].
    + rewrite (plus_at_end _ _ Es) in H. apply found_stop in H.
      destruct H as [-> H]. now apply (Stop _ s acc p p').
    + assert (E : plus Empty s = TST_of s).
      { simpl. unfold at_end in Es. now rewrite Es. }
      rewrite E in H.
      destruct (found_TST_of_only s q acc p' H) as [->|[-> Hw]]; [now right|].
      now apply (Stop _ s acc p p').
  - destruct (at_end q) eqn:Eq.
    { destruct (found_at_end _ _ _ _ Eq H) as [-> Hw].
      now apply (Stop _ s acc p p'). }
    destruct (sumbool_of_bool (at_end s)) as [Es|Es].
    { left. rewrite (plus_at_end _ _ Es) in H.
      now apply (found_side _ _ _ _ p'). }
    destruct q as [|y q]; [discriminate|]. unfold at_end in Eq. simpl in Eq.
    destruct s as [|x s]; [discriminate|]. unfold at_end in Es. simpl in Es.
    rewrite (plus_cons _ _ _ _ _ _ _ Es) in H.
    rewrite (found_cons _ _ _ _ _ _ _ _ _ Eq).
    assert (Eq' : at_end (y :: q) = false) by (unfold at_end; exact Eq).
    destruct (x >? v) eqn:G; [|destruct (x <? v) eqn:L].
    + apply (found_cons _ _ _ _ _ _ _ _ _ Eq) in H.
      destruct (v >? y); [|destruct (v <? y)].
      * left. now apply (found_side _ _ _ _ _ Eq' H).
      * now apply (IHr (x :: s) _ _ (Node v w l c r)
                     (Node v w l c (plus r (x :: s)))
                     (fun E => or_introl E) H).
      * left. now apply (found_parent _ _ _ (Node v w l c r)
                           (Node v w l c (plus r (x :: s))) (fun E => E) H).
    + apply (found_cons _ _ _ _ _ _ _ _ _ Eq) in H.
      destruct (v >? y); [|destruct (v <? y)].
      * now apply (IHl (x :: s) _ _ (Node v w l c r)
                     (Node v w (plus l (x :: s)) c r)
                     (fun E => or_introl E) H).
      * left. now apply (found_side _ _ _ _ _ Eq' H).
      * left. now apply (found_parent _ _ _ (Node v w l c r)
                           (Node v w (plus l (x :: s)) c r) (fun E => E) H).
    + assert (x = v) by lia. subst v.
      apply (found_cons _ _ _ _ _ _ _ _ _ Eq) in H.
      destruct (x >? y) eqn:Gy; [|destruct (x <? y) eqn:Ly].
      * left. now apply (found_side _ _ _ _ _ Eq' H).
      * left. now apply (found_side _ _ _ _ _ Eq' H).
      * assert (x = y) by lia. subst y.
        assert (Hp' : ends_word (Node x (w || at_end s) l (plus c s) r) = true ->
                      ends_word (Node x w l c r) = true \/ at_end s = true).
        { unfold ends_word. simpl. intros E. now apply orb_true_iff in E. }
        destruct (IHc s q _ (Node x w l c r) _ Hp' H) as [H'|H']; [now left|right].
        rewrite H'. simpl. now rewrite Es.
Qed.

(** After an insertion the members are the former members and the inserted
    sequence, when it is not empty. *)
Lemma exist_plus_iff (t : TST) (s q : list C) :
  exist (plus t s) q = true <->
  exist t q = true \/ (q = c_str s /\ q <> []).
Proof.
  split.
  - intros H. apply exist_found in H.
    destruct (at_end s) eqn:Es.
    { left. apply exist_found. now rewrite (plus_at_end _ _ Es) in H. }
    destruct (found_plus_only t s q 0%nat Empty Empty) as [H'| ->]; trivial.
    + discriminate.
    + left. now apply exist_found.
    + right. split; [reflexivity|]. intros E. apply at_end_nil_iff in E.
      congruence.
  - intros [H|[-> Hne]].
    + now apply plus_keeps_members_aux.
    + rewrite <- plus_c_str. apply exist_after_plus; [exact Hne|].
      apply c_str_nul_free.
Qed.

(** The members of a tree built from the empty tree by insertions are the
    non-empty sequences inserted. *)
Lemma exist_inserted_iff (ss : list (list C)) (q : list C) :
  exist (fold_left plus ss Empty) q = true <->
  q <> [] /\ In q (map c_str ss).
Proof.
  induction ss as [|s ss IH] using rev_ind.
  - simpl. split; [|tauto]. intros H. apply exist_found, found_stop in H.
    now destruct H.
  - rewrite fold_left_app, map_app, in_app_iff. simpl.
    rewrite exist_plus_iff, IH. split.
    + intros [[Hne H]|[-> Hne]]; auto.
    + intros [Hne [H|[<-|[]]]]; auto.
Qed.

Lemma constructible_inserted (ss : list (list C)) :
  constructible (fold_left plus ss Empty).
Proof.
  induction ss as [|s ss IH] using rev_ind; [constructor|].
  rewrite fold_left_app. simpl. now constructor.
Qed.

(** On a tree built by insertions, the prefix returned is as long as the
    longest agreement of the query with an inserted sequence. *)
Lemma prefix_of_inserted (ss : list (list C)) (S : list C) :
  let T := fold_left plus ss Empty in
  let L := length (prefix T S) in
  (forall s n,
     In s ss -> (n <= length (c_str s))%nat -> (n <= length S)%nat ->
     firstn n (c_str s) = firstn n S -> (n <= L)%nat) /\
  (empty T = false ->
   exists s, In s ss /\ (L <= length (c_str s))%nat /\
             firstn L (c_str s) = firstn L S).
Proof.
  intros T L. unfold L. rewrite prefix_length. split.
  - intros s n Hs Hn1 Hn2 E.
    destruct (c_str s) as [|x s'] eqn:Ec; [simpl in Hn1; lia|].
    apply (matched_upper_bound T S (c_str s) n);
      try (rewrite Ec; assumption); trivial.
    apply exist_inserted_iff. split; [now rewrite Ec|].
    apply in_map_iff. now exists s.
  - intros Hne.
    destruct (live_holds_matched T Hne
                (constructible_live T (constructible_inserted ss)) S)
      as (Q & HQ & Hlen & Hfst).
    apply held_stored, exist_inserted_iff in HQ. destruct HQ as [_ HQ].
    apply in_map_iff in HQ. destruct HQ as (s & <- & Hs).
    now exists s.
Qed.

(** ** Structural sharing *)

Lemma descent_at_end (t : TST) (str : list C) :
  at_end str = true -> descent t str = [].
Proof. unfold at_end. intros E. destruct t; simpl; [reflexivity|now rewrite E]. Qed.

Lemma descent_TST_of (x : C) (s : list C) :
  (x =? NUL) = false ->
  descent (TST_of (x :: s)) (x :: s) = to_center :: descent (TST_of s) s.
Proof.
  intros E. simpl. rewrite E. simpl. rewrite E.
  now rewrite Z.gtb_ltb, Z.ltb_irrefl.
Qed.

(** The descent in the new tree, by the branch the insertion took. *)
Lemma descent_plus_node v w l c r (str : list C) :
  at_end str = false ->
  descent (plus (Node v w l c r) str) str =
  if deref str >? v then to_right :: descent (plus r str) str
  else if deref str <? v then to_left :: descent (plus l str) str
  else to_center :: descent (plus c (next str)) (next str).
Proof.
  unfold at_end. intros E. cbn [plus]. rewrite E.
  destruct (deref str >? v) eqn:G.
  { cbn [descent]. now rewrite E, G. }
  destruct (deref str <? v) eqn:L.
  { cbn [descent]. now rewrite E, G, L. }
  cbn [descent]. now rewrite E, Z.gtb_ltb, Z.ltb_irrefl.
Qed.


Lemma rep_valid (h : Store.heap) (a : nat) (t : TST) :
  Store.rep h (Some a) t -> (a < length h)%nat.
Proof.
  inversion 1; subst. apply nth_error_Some. congruence.
Qed.

(** Allocation leaves the represented trees as they are. *)
Lemma rep_app (h k : Store.heap) (p : Store.ptr) (t : TST) :
  Store.rep h p t -> Store.rep (h ++ k) p t.
Proof.
  induction 1 as [|a n l c r Ha _ IHl _ IHc _ IHr]; [constructor|].
  constructor; trivial.
  rewrite nth_error_app1; [exact Ha|]. apply nth_error_Some. congruence.
Qed.

(** Allocation leaves the pointers reached from an old root as they are. *)
Lemma ptr_at_app (h k : Store.heap) (q : path) :
  forall p t, Store.rep h p t -> Store.ptr_at (h ++ k) p q = Store.ptr_at h p q.
Proof.
  induction q as [|d q IH]; intros p t H; [reflexivity|].
  inversion H as [|a n l c r Ha Hl Hc Hr]; subst; [reflexivity|].
  cbn [Store.ptr_at]. rewrite nth_error_app1 by (apply nth_error_Some; congruence).
  rewrite Ha. destruct d; eauto.
Qed.

Lemma ptr_at_null (h : Store.heap) (q : path) (x : Store.ptr) :
  Store.ptr_at h None q = Some x -> q = [] /\ x = None.
Proof. destruct q; simpl; [|discriminate]. intros E. injection E as <-. now split. Qed.

Lemma nth_error_fresh (h : Store.heap) (n : Store.node) :
  nth_error (h ++ [n]) (length h) = Some n.
Proof. rewrite nth_error_app2 by lia. now rewrite Nat.sub_diag. Qed.

(** The constructor allocates one Store.node per symbol, all of them on the path. *)
Lemma store_TST_of (str : list C) :
  forall h, exists k p',
    Store.TST_of h str = (h ++ k, p') /\
    Store.rep (h ++ k) p' (TST_of str) /\
    length k = length (descent (TST_of str) str) /\
    Store.shares h None (h ++ k) p' (descent (TST_of str) str).
Proof.
  induction str as [|x s IH]; intros h.
  - exists [], None. rewrite app_nil_r. repeat split; try constructor.
    intros q y H. apply ptr_at_null in H. destruct H as [-> ->]. now left.
  - cbn [Store.TST_of TST_of]. destruct (x =? NUL) eqn:E.
    + exists [], None. rewrite app_nil_r. repeat split; try constructor.
      intros q y H. apply ptr_at_null in H. destruct H as [-> ->]. now left.
    + destruct (IH h) as (k & ctr & Hk & Hrep & Hlen & Hsh). rewrite Hk.
      fold (TST_of (x :: s)) in *.
      change (Node x (at_end s) Empty (TST_of s) Empty) with
        (Node (Store.n_value (Store.mkNode x (at_end s) None ctr None))
              (Store.n_word (Store.mkNode x (at_end s) None ctr None))
              Empty (TST_of s) Empty).
      set (n := Store.mkNode x (at_end s) None ctr None).
      exists (k ++ [n]), (Some (length (h ++ k))).
      assert (Hd : descent (Node (Store.n_value n) (Store.n_word n) Empty (TST_of s) Empty)
                     (x :: s) = to_center :: descent (TST_of s) s).
      { unfold n. simpl. now rewrite E, Z.gtb_ltb, Z.ltb_irrefl. }
      rewrite Hd, app_assoc. unfold Store.make_shared. repeat split.
      * constructor; simpl; try constructor.
        -- apply nth_error_fresh.
        -- now apply rep_app.
      * rewrite length_app. simpl. lia.
      * intros q y H. destruct q as [|d q].
        -- simpl in H. injection H as <-. simpl.
           exists (length (h ++ k)). split; [reflexivity|].
           rewrite length_app. lia.
        -- cbn [Store.ptr_at] in H. rewrite nth_error_fresh in H.
           destruct d; simpl in H; simpl proper_prefix.
           ++ apply ptr_at_null in H. destruct H as [-> ->]. now right.
           ++ rewrite (ptr_at_app _ _ _ _ _ Hrep) in H.
              specialize (Hsh q y H).
              destruct (proper_prefix q (descent (TST_of s) s)); [exact Hsh|].
              right. destruct Hsh as [Hs|[-> _]].
              ** apply ptr_at_null in Hs. now destruct Hs as [_ ->].
              ** now split.
           ++ apply ptr_at_null in H. destruct H as [-> ->]. now right.
Qed.


Lemma proper_prefix_cons (d e : dir) (q p : path) :
  proper_prefix (d :: q) (e :: p) = dir_eqb d e && proper_prefix q p.
Proof. reflexivity. Qed.

Lemma proper_prefix_nil (q : path) : proper_prefix q [] = false.
Proof. now destruct q. Qed.

Lemma shares_same (h : Store.heap) (p : Store.ptr) : Store.shares h p h p [].
Proof. intros q y Hq. rewrite proper_prefix_nil. now left. Qed.

(** A root rebuilt around one new child shares its two other children. *)
Lemma shares_rebuilt (h k : Store.heap) (a : nat) (n n' : Store.node)
    (l c r : TST) (d : dir) (x' : Store.ptr) (ins : path) :
  let child := fun (m : Store.node) (e : dir) =>
    match e with
    | to_left => Store.n_left m
    | to_center => Store.n_center m
    | to_right => Store.n_right m
    end in
  let sub_of := fun (e : dir) =>
    match e with to_left => l | to_center => c | to_right => r end in
  nth_error h a = Some n ->
  (forall e, Store.rep h (child n e) (sub_of e)) ->
  (forall e, e <> d -> child n' e = child n e) ->
  child n' d = x' ->
  (exists u, Store.rep (h ++ k) x' u) ->
  Store.shares h (child n d) (h ++ k) x' ins ->
  Store.shares h (Some a) (h ++ k ++ [n']) (Some (length (h ++ k))) (d :: ins).
Proof.
  intros child sub_of Ha Hrep Hsame Hnew (u & Hu) Hsh q y H.
  destruct q as [|e q].
  - simpl in H. injection H as <-. simpl.
    exists (length (h ++ k)). split; [reflexivity|]. rewrite length_app. lia.
  - rewrite app_assoc in H. cbn [Store.ptr_at] in H.
    rewrite nth_error_fresh in H. fold (child n' e) in H.
    rewrite proper_prefix_cons. cbn [Store.ptr_at]. rewrite Ha.
    fold (child n e).
    destruct (dir_eqb e d) eqn:Ed.
    + assert (e = d) by (destruct e, d; easy). subst e. simpl.
      rewrite Hnew in H. rewrite (ptr_at_app _ _ _ _ _ Hu) in H.
      exact (Hsh q y H).
    + assert (Hne : e <> d) by (intros ->; destruct d; discriminate).
      simpl. rewrite (Hsame e Hne) in H. left.
      rewrite <- app_assoc in H.
      now rewrite (ptr_at_app _ _ _ _ _ (Hrep e)) in H.
Qed.

(** Insertion on the store: it returns within a budget above the height of the
    tree, allocates one node per node of the insertion path and nothing else,
    represents the tree of [plus], and shares the rest with the old tree. *)
Lemma store_plus (t : TST) :
  forall (h : Store.heap) (p : Store.ptr) (str : list C),
    Store.rep h p t ->
    exists k p',
      (forall fuel, (height t < fuel)%nat ->
                    Store.plus fuel h p str = Some (h ++ k, p')) /\
      Store.rep (h ++ k) p' (plus t str) /\
      length k = length (descent (plus t str) str) /\
      Store.shares h p (h ++ k) p' (descent (plus t str) str).
Proof.
  induction t as [|v w l IHl c IHc r IHr]; intros h p str H.
  - destruct (at_end str) eqn:E.
    + exists [], p. rewrite app_nil_r, (plus_at_end _ _ E). repeat split.
      * intros [|fuel] Hf; [lia|]. simpl. unfold at_end in E. now rewrite E.
      * exact H.
      * apply shares_same.
    + inversion H; subst.
      destruct (store_TST_of str h) as (k & p' & Hk & Hrep & Hlen & Hsh).
      assert (Hp : plus Empty str = TST_of str).
      { simpl. unfold at_end in E. now rewrite E. }
      exists k, p'. rewrite Hp. repeat split; trivial.
      intros [|fuel] Hf; [lia|]. simpl. unfold at_end in E. now rewrite E, Hk.
  - destruct (at_end str) eqn:E.
    + exists [], p. rewrite app_nil_r, (plus_at_end _ _ E). repeat split.
      * intros [|fuel] Hf; [lia|]. simpl. unfold at_end in E. now rewrite E.
      * exact H.
      * rewrite (descent_at_end _ _ E). reflexivity.
      * rewrite (descent_at_end _ _ E). apply shares_same.
    + inversion H as [|a n l0 c0 r0 Ha Hl Hc Hr]; subst.
      rewrite (descent_plus_node _ _ _ _ _ _ E).
      assert (Hreps : forall e,
                 Store.rep h
                   match e with
                   | to_left => Store.n_left n
                   | to_center => Store.n_center n
                   | to_right => Store.n_right n
                   end
                   match e with to_left => l | to_center => c | to_right => r end)
        by (intros []; assumption).
      unfold at_end in E. cbn [plus]. rewrite E.
      destruct (deref str >? Store.n_value n) eqn:G;
        [|destruct (deref str <? Store.n_value n) eqn:L].
      * destruct (IHr h _ str Hr) as (k & r' & Hk & Hrep & Hlen & Hsh).
        set (n' := Store.mkNode (Store.n_value n) (Store.n_word n)
                     (Store.n_left n) (Store.n_center n) r').
        exists (k ++ [n']), (Some (length (h ++ k))). repeat split.
        -- intros [|fuel] Hf; [lia|]. apply height_children in Hf.
           cbn [Store.plus]. rewrite E, Ha, G, (Hk fuel) by tauto.
           unfold Store.make_shared. now rewrite app_assoc.
        -- rewrite app_assoc.
           change (Node (Store.n_value n) (Store.n_word n) l c (plus r str))
             with (Node (Store.n_value n') (Store.n_word n') l c (plus r str)).
           constructor; [apply nth_error_fresh| | |]; simpl;
             rewrite <- app_assoc; try now apply rep_app.
           rewrite app_assoc. now apply rep_app.
        -- rewrite length_app. simpl. lia.
        -- apply (shares_rebuilt h k a n n' l c r to_right r'); trivial.
           ++ now intros [] ?.
           ++ eauto.
      * destruct (IHl h _ str Hl) as (k & l' & Hk & Hrep & Hlen & Hsh).
        set (n' := Store.mkNode (Store.n_value n) (Store.n_word n)
                     l' (Store.n_center n) (Store.n_right n)).
        exists (k ++ [n']), (Some (length (h ++ k))). repeat split.
        -- intros [|fuel] Hf; [lia|]. apply height_children in Hf.
           cbn [Store.plus]. rewrite E, Ha, G, L, (Hk fuel) by tauto.
           unfold Store.make_shared. now rewrite app_assoc.
        -- rewrite app_assoc.
           change (Node (Store.n_value n) (Store.n_word n) (plus l str) c r)
             with (Node (Store.n_value n') (Store.n_word n') (plus l str) c r).
           constructor; [apply nth_error_fresh| | |]; simpl;
             rewrite <- app_assoc; try now apply rep_app.
           rewrite app_assoc. now apply rep_app.
        -- rewrite length_app. simpl. lia.
        -- apply (shares_rebuilt h k a n n' l c r to_left l'); trivial.
           ++ now intros [] ?.
           ++ eauto.
      * destruct (IHc h _ (next str) Hc) as (k & c' & Hk & Hrep & Hlen & Hsh).
        set (n' := Store.mkNode (deref str)
                     (Store.n_word n || at_end (next str))
                     (Store.n_left n) c' (Store.n_right n)).
        exists (k ++ [n']), (Some (length (h ++ k))). repeat split.
        -- intros [|fuel] Hf; [lia|]. apply height_children in Hf.
           cbn [Store.plus]. rewrite E, Ha, G, L, (Hk fuel) by tauto.
           unfold Store.make_shared. now rewrite app_assoc.
        -- rewrite app_assoc.
           change (Node (deref str) (Store.n_word n || at_end (next str))
                        l (plus c (next str)) r)
             with (Node (Store.n_value n') (Store.n_word n')
                        l (plus c (next str)) r).
           constructor; [apply nth_error_fresh| | |]; simpl;
             rewrite <- app_assoc; try now apply rep_app.
           rewrite app_assoc. now apply rep_app.
        -- rewrite length_app. simpl. lia.
        -- apply (shares_rebuilt h k a n n' l c r to_center c'); trivial.
           ++ now intros [] ?.
           ++ eauto.
Qed.

Lemma rep_functional (h : Store.heap) (p : Store.ptr) (t : TST) :
  Store.rep h p t -> forall t', Store.rep h p t' -> t = t'.
Proof.
  induction 1 as [|a n l c r Ha _ IHl _ IHc _ IHr]; intros t' H'.
  - now inversion H'.
  - inversion H' as [|a' n' l' c' r' Ha' Hl' Hc' Hr']; subst.
    assert (n' = n) by congruence. subst n'.
    now rewrite (IHl _ Hl'), (IHc _ Hc'), (IHr _ Hr').
Qed.

(** Following a path on the store and in the tree it represents agree. *)
Lemma rep_subtree_at (h : Store.heap) (q : path) :
  forall p t,
    Store.rep h p t ->
    match subtree_at t q with
    | Some u => exists x, Store.ptr_at h p q = Some x /\ Store.rep h x u
    | None => Store.ptr_at h p q = None
    end.
Proof.
  induction q as [|d q IH]; intros p t H.
  - simpl. now exists p.
  - inversion H as [|a n l c r Ha Hl Hc Hr]; subst; [reflexivity|].
    cbn [subtree_at Store.ptr_at]. rewrite Ha. destruct d; now apply IH.
Qed.

(** C5. Let [p] represent [T] in the store [h].  Inserting [S] returns, within
    a budget above the height of [T], a store that extends [h] by one node per
    node of the insertion path, and a root that represents [plus T S]; [p]
    still represents [T].  A position of the new tree that is not on the
    insertion path holds the very pointer that [T] holds at this position (or
    a null pointer where [T] has no such position: the empty children of a new
    node), and a position on the path holds a new node.  So the subtrees off
    the path are also equal as values. *)
Theorem plus_shares_subtrees
    (h : Store.heap) (p : Store.ptr) (T : TST) (S : list C) :
  Store.rep h p T ->
  exists (fresh : Store.heap) (p' : Store.ptr),
    (forall fuel, (height T < fuel)%nat ->
                  Store.plus fuel h p S = Some (h ++ fresh, p')) /\
    Store.rep (h ++ fresh) p' (plus T S) /\
    Store.rep (h ++ fresh) p T /\
    length fresh = length (descent (plus T S) S) /\
    (forall q x,
       Store.ptr_at (h ++ fresh) p' q = Some x ->
       on_insertion_path T S q = false ->
       Store.ptr_at h p q = Some x \/
       (x = None /\ Store.ptr_at h p q = None)) /\
    (forall q x,
       Store.ptr_at (h ++ fresh) p' q = Some x ->
       on_insertion_path T S q = true ->
       exists a, x = Some a /\ (length h <= a)%nat) /\
    (forall q u,
       subtree_at (plus T S) q = Some u ->
       on_insertion_path T S q = false ->
       subtree_at T q = Some u \/ (u = Empty /\ subtree_at T q = None)).
Proof.
  intros H.
  destruct (store_plus T h p S H) as (k & p' & Hk & Hrep & Hlen & Hsh).
  assert (Off : forall q x,
             Store.ptr_at (h ++ k) p' q = Some x ->
             on_insertion_path T S q = false ->
             Store.ptr_at h p q = Some x \/
             (x = None /\ Store.ptr_at h p q = None)).
  { intros q x Hq Hoff. specialize (Hsh q x Hq).
    unfold on_insertion_path in Hoff. now rewrite Hoff in Hsh. }
  exists k, p'. repeat split; trivial.
  - now apply rep_app.
  - intros q x Hq Hon. specialize (Hsh q x Hq).
    unfold on_insertion_path in Hon. now rewrite Hon in Hsh.
  - intros q u Hu Hoff.
    pose proof (rep_subtree_at (h ++ k) q p' _ Hrep) as Hnew.
    rewrite Hu in Hnew. destruct Hnew as (x & Hx & Hxu).
    pose proof (rep_subtree_at h q p T H) as Hold.
    destruct (Off q x Hx Hoff) as [Hsame|[-> Hnone]].
    + left. rewrite Hsame in Hold.
      destruct (subtree_at T q) as [u0|]; [|discriminate].
      destruct Hold as (x0 & E & Hx0). injection E as <-.
      f_equal. apply (rep_functional (h ++ k) x); [now apply rep_app|exact Hxu].
    + right. split; [now inversion Hxu|].
      destruct (subtree_at T q) as [u0|]; [|reflexivity].
      destruct Hold as (x0 & E & _). congruence.
Qed.

Lemma plus_shares_subtrees_witness :
  let h := [Store.mkNode 98 true None None None;
            Store.mkNode 97 false None (Some 0%nat) None] in
  let p := Some 1%nat in
  let T := Node 97 false Empty (Node 98 true Empty Empty Empty) Empty in
  let S := lit "ac" in
  exists (fresh : Store.heap) (p' : Store.ptr),
    (forall fuel, (height T < fuel)%nat ->
                  Store.plus fuel h p S = Some (h ++ fresh, p')) /\
    Store.rep (h ++ fresh) p' (plus T S) /\
    Store.rep (h ++ fresh) p T /\
    length fresh = length (descent (plus T S) S) /\
    (forall q x,
       Store.ptr_at (h ++ fresh) p' q = Some x ->
       on_insertion_path T S q = false ->
       Store.ptr_at h p q = Some x \/
       (x = None /\ Store.ptr_at h p q = None)) /\
    (forall q x,
       Store.ptr_at (h ++ fresh) p' q = Some x ->
       on_insertion_path T S q = true ->
       exists a, x = Some a /\ (length h <= a)%nat) /\
    (forall q u,
       subtree_at (plus T S) q = Some u ->
       on_insertion_path T S q = false ->
       subtree_at T q = Some u \/ (u = Empty /\ subtree_at T q = None)).
Proof.
  intros h p T S.
  apply (plus_shares_subtrees h p T S).
  apply (Store.rep_node h 1 (Store.mkNode 97 false None (Some 0%nat) None)
           Empty (Node 98 true Empty Empty Empty) Empty);
    [reflexivity|constructor| |constructor].
  apply (Store.rep_node h 0 (Store.mkNode 98 true None None None)
           Empty Empty Empty); [reflexivity|constructor..].
Defined.

(** ** The models at work *)

(** The empty-tree scenarios of the specification. *)
Example empty_tree_scenarios :
  exist Empty (lit "a") = false /\
  prefix Empty (lit "cat") = [] /\
  value Empty = EmptyTreeError.
Proof. repeat split. Qed.

(** The checked operations on the scenario tree, with a budget of 9 calls for
    a tree of height 8. *)
Example checked_scenario :
  height scenario = 8%nat /\
  Checked.exist 9 scenario (lit "functor") = Ret true /\
  Checked.prefix 9 scenario (lit "theorem") = Ret (lit "theor") /\
  Checked.size 9 scenario = Ret 21%nat /\
  Checked.size 8 scenario = OutOfFuel.
Proof. vm_compute. repeat split. Qed.

(** Inserting "ab" and then "ac" on the store: the second insertion allocates
    the node of 'c' and new nodes for 'b' and 'a'; the old nodes stay at their
    addresses and the old root 1 still leads to the path "ab". *)
Example store_scenario :
  Store.plus 1 [] None (lit "ab") =
    Some ([Store.mkNode 98 true None None None;
           Store.mkNode 97 false None (Some 0%nat) None], Some 1%nat) /\
  Store.plus 3 [Store.mkNode 98 true None None None;
                Store.mkNode 97 false None (Some 0%nat) None]
             (Some 1%nat) (lit "ac") =
    Some ([Store.mkNode 98 true None None None;
           Store.mkNode 97 false None (Some 0%nat) None;
           Store.mkNode 99 true None None None;
           Store.mkNode 98 true None None (Some 2%nat);
           Store.mkNode 97 false None (Some 3%nat) None], Some 4%nat) /\
  descent (plus (TST_of (lit "ab")) (lit "ac")) (lit "ac") =
    [to_center; to_right; to_center].
Proof. vm_compute. repeat split. Qed.

(** * Further properties of the code *)

(** ** Insertion and membership *)

(** X1. Whatever the tree, a non-empty string without the terminator is a
    member of the tree obtained by inserting it. *)
Theorem exist_after_any_plus (T : TST) (S : list C) :
  S <> [] -> nul_free S = true -> exist (plus T S) S = true.
Proof. apply exist_after_plus. Qed.

Lemma exist_after_any_plus_witness :
  exist (plus scenario (lit "cat")) (lit "cat") = true.
Proof.
  apply (exist_after_any_plus scenario (lit "cat"));
    [discriminate | reflexivity].
Defined.

(** X2. After an insertion the members are exactly the former members and the
    string inserted, read up to its terminator, when that is not empty:
    insertion adds one member and nothing else. *)
Theorem exist_plus_exactly (T : TST) (S Q : list C) :
  exist (plus T S) Q = true <->
  exist T Q = true \/ (Q = c_str S /\ Q <> []).
Proof. apply exist_plus_iff. Qed.

(** X3. The members of a tree built from the empty tree by a series of
    insertions are exactly the non-empty strings inserted, each read up to its
    terminator. *)
Theorem exist_after_insertions (ss : list (list C)) (Q : list C) :
  exist (fold_left plus ss Empty) Q = true <->
  Q <> [] /\ In Q (map c_str ss).
Proof. apply exist_inserted_iff. Qed.

Lemma plus_TST_of_same (s : list C) : plus (TST_of s) s = TST_of s.
Proof.
  induction s as [|x s IH]; [reflexivity|].
  cbn [TST_of]. destruct (x =? NUL) eqn:Ex.
  - simpl. now rewrite Ex.
  - rewrite (plus_cons _ _ _ _ _ _ _ Ex), Z.gtb_ltb, Z.ltb_irrefl.
    now rewrite IH, orb_diag.
Qed.

Lemma plus_plus_same (t : TST) : forall s, plus (plus t s) s = plus t s.
Proof.
  induction t as [|v w l IHl c IHc r IHr]; intros s.
  - destruct (sumbool_of_bool (at_end s)) as [E|E].
    + now rewrite !(plus_at_end _ _ E).
    + assert (H : plus Empty s = TST_of s).
      { simpl. unfold at_end in E. now rewrite E. }
      rewrite H. apply plus_TST_of_same.
  - destruct (sumbool_of_bool (at_end s)) as [E|E].
    + now rewrite !(plus_at_end _ _ E).
    + destruct s as [|x s]; [discriminate|]. unfold at_end in E. simpl in E.
      rewrite (plus_cons _ _ _ _ _ _ _ E).
      destruct (x >? v) eqn:G; [|destruct (x <? v) eqn:L].
      * rewrite (plus_cons _ _ _ _ _ _ _ E), G. now rewrite IHr.
      * rewrite (plus_cons _ _ _ _ _ _ _ E), G, L. now rewrite IHl.
      * rewrite (plus_cons _ _ _ _ _ _ _ E), Z.gtb_ltb, Z.ltb_irrefl.
        rewrite IHc, <- orb_assoc, orb_diag. reflexivity.
Qed.

(** X4. Inserting a string a second time gives a tree equal to the one the
    first insertion gave: same nodes, same word flags, same shape. *)
Theorem plus_idempotent (T : TST) (S : list C) :
  plus (plus T S) S = plus T S.
Proof. apply plus_plus_same. Qed.

(** X5. The order of two insertions does not change which strings are
    members. *)
Theorem exist_plus_commutes (T : TST) (A B Q : list C) :
  exist (plus (plus T A) B) Q = exist (plus (plus T B) A) Q.
Proof.
  apply eq_true_iff_eq. rewrite !exist_plus_iff. tauto.
Qed.

(** Every symbol that the search consumes is a symbol before the terminator. *)
Lemma found_nul_free (t : TST) :
  forall q acc p, found t q acc p -> nul_free q = true.
Proof.
  induction t as [|v w l IHl c IHc r IHr]; intros q acc p H.
  - apply found_stop in H. now destruct H as [-> _].
  - destruct (sumbool_of_bool (at_end q)) as [E|E].
    { apply (found_at_end _ _ _ _ E) in H. now destruct H as [-> _]. }
    destruct q as [|y q]; [discriminate|]. unfold at_end in E. simpl in E.
    apply (found_cons _ _ _ _ _ _ _ _ _ E) in H.
    destruct (v >? y); [now apply IHl in H|].
    destruct (v <? y); [now apply IHr in H|].
    apply nul_free_cons. split; [exact E|]. now apply IHc in H.
Qed.

(** X6. A member is never the empty string and never holds the terminator
    symbol; and the longest-prefix query returns a member whole. *)
Theorem exist_only_proper_strings (T : TST) (Q : list C) :
  exist T Q = true ->
  Q <> [] /\ nul_free Q = true /\ prefix T Q = Q.
Proof.
  intros H. pose proof H as H'. apply exist_found in H.
  split; [|split].
  - intros ->. destruct T; discriminate H'.
  - now apply (found_nul_free T Q 0%nat Empty).
  - destruct H as [Hn _]. unfold prefix. rewrite Hn. apply firstn_all.
Qed.

Lemma exist_only_proper_strings_witness :
  lit "theory" <> [] /\ nul_free (lit "theory") = true /\
  prefix scenario (lit "theory") = lit "theory".
Proof.
  apply (exist_only_proper_strings scenario (lit "theory")). reflexivity.
Defined.

(** ** Size *)

Lemma fold_count (t : TST) :
  forall n, fold t n (fun acc _ => (acc + 1)%nat) = (n + size t)%nat.
Proof.
  unfold size. intros n. rewrite !fold_postorder.
  generalize (postorder t). intros ps. revert n.
  assert (G : forall n, Detail.fold ps n
                          (fun acc (q : path) => (acc + 1)%nat)
                        = (n + length ps)%nat).
  { induction ps as [|p ps IH]; intros n; simpl; [lia|]. rewrite IH. lia. }
  intros n. now rewrite (G n), (G 0%nat).
Qed.

Lemma size_node v w l c r :
  size (Node v w l c r) = S (size l + size c + size r).
Proof.
  unfold size at 1. rewrite fold_node, !fold_count. lia.
Qed.

Lemma size_TST_of (s : list C) : size (TST_of s) = length (c_str s).
Proof.
  induction s as [|x s IH]; [reflexivity|]. simpl.
  destruct (x =? NUL); [reflexivity|].
  rewrite size_node, IH. simpl. change (size Empty) with 0%nat. lia.
Qed.

Lemma matched_at_end (t : TST) (s : list C) :
  at_end s = true -> matched t s = 0%nat.
Proof. intros E. unfold matched. now rewrite prefix_search_at_end. Qed.

Lemma size_plus (t : TST) :
  forall s, (size (plus t s) + matched t s = size t + length (c_str s))%nat.
Proof.
  induction t as [|v w l IHl c IHc r IHr]; intros s.
  - destruct (sumbool_of_bool (at_end s)) as [E|E].
    + rewrite (plus_at_end _ _ E), (matched_at_end _ _ E).
      apply at_end_nil_iff in E. now rewrite E.
    + assert (H : plus Empty s = TST_of s).
      { simpl. unfold at_end in E. now rewrite E. }
      rewrite H, size_TST_of. unfold matched, size. simpl. lia.
  - destruct (sumbool_of_bool (at_end s)) as [E|E].
    + rewrite (plus_at_end _ _ E), (matched_at_end _ _ E).
      apply at_end_nil_iff in E. now rewrite E.
    + destruct s as [|x s]; [discriminate|]. unfold at_end in E. simpl in E.
      rewrite (plus_cons _ _ _ _ _ _ _ E), (matched_cons _ _ _ _ _ _ _ E).
      cbn [c_str]. rewrite E. cbn [length].
      destruct (x >? v) eqn:G; [|destruct (x <? v) eqn:L].
      * replace (v >? x) with false by lia. replace (v <? x) with true by lia.
        rewrite !size_node. specialize (IHr (x :: s)).
        cbn [c_str length] in IHr. rewrite E in IHr. cbn [length] in IHr. lia.
      * replace (v >? x) with true by lia.
        rewrite !size_node. specialize (IHl (x :: s)).
        cbn [c_str length] in IHl. rewrite E in IHl. cbn [length] in IHl. lia.
      * replace (v >? x) with false by lia. replace (v <? x) with false by lia.
        rewrite !size_node. specialize (IHc s). lia.
Qed.

(** X7. [size] counts the nodes: none for the empty tree, one more than the
    three children together for a node.  An insertion adds one node for each
    symbol of the string that prefix search did not match in the tree, so the
    tree never shrinks and grows by at most the length of the string. *)
Theorem size_after_plus (T : TST) (S : list C) :
  (size T = 0%nat <-> empty T = true) /\
  (forall v w l c r,
     size (Node v w l c r) = (1 + (size l + size c + size r))%nat) /\
  (size (plus T S) + matched T S = size T + length (c_str S))%nat /\
  (size T <= size (plus T S) <= size T + length S)%nat.
Proof.
  assert (Hm : (matched T S <= length (c_str S) <= length S)%nat).
  { split.
    - clear. revert S. induction T as [|v w l IHl c IHc r IHr]; intros S.
      + unfold matched. simpl. lia.
      + destruct (sumbool_of_bool (at_end S)) as [E|E].
        * rewrite (matched_at_end _ _ E). lia.
        * destruct S as [|x s]; [discriminate|].
          unfold at_end in E. simpl in E.
          rewrite (matched_cons _ _ _ _ _ _ _ E).
          specialize (IHl (x :: s)). specialize (IHr (x :: s)).
          specialize (IHc s). cbn [c_str] in *. rewrite E in *.
          cbn [length] in *.
          destruct (v >? x); [lia|]. destruct (v <? x); lia.
    - clear. induction S as [|x s IH]; simpl; [lia|].
      destruct (x =? NUL); simpl; lia. }
  pose proof (size_plus T S) as H.
  split; [|split; [|split]].
  - destruct T as [|v w l c r]; [easy|].
    rewrite size_node. split; [lia|discriminate].
  - intros. apply size_node.
  - exact H.
  - lia.
Qed.

(** ** The tree of one string *)

(** X8. The tree the constructor builds from a string is the tree of its
    insertion into the empty tree; it has one node for each symbol before the
    terminator, and its only member is that string, if not empty. *)
Theorem TST_of_single_member (S Q : list C) :
  TST_of S = plus Empty S /\
  size (TST_of S) = length (c_str S) /\
  (exist (TST_of S) Q = true <-> Q = c_str S /\ Q <> []).
Proof.
  assert (H : TST_of S = plus Empty S).
  { simpl. destruct S as [|x s]; [reflexivity|]. simpl.
    now destruct (x =? NUL). }
  split; [exact H|]. split; [apply size_TST_of|].
  rewrite H, exist_plus_iff. split; [|tauto].
  intros [E|E]; [|exact E].
  apply exist_found, found_stop in E. now destruct E.
Qed.

(** ** Longest prefix *)

Lemma matched_firstn (t : TST) :
  forall s, matched t (firstn (matched t s) s) = matched t s.
Proof.
  induction t as [|v w l IHl c IHc r IHr]; intros s.
  - reflexivity.
  - destruct (sumbool_of_bool (at_end s)) as [E|E].
    { rewrite (matched_at_end _ _ E). simpl. now apply matched_at_end. }
    destruct s as [|x s]; [discriminate|]. unfold at_end in E. simpl in E.
    rewrite (matched_cons _ _ _ _ _ _ _ E).
    destruct (v >? x) eqn:G; [|destruct (v <? x) eqn:L].
    + destruct (matched l (x :: s)) as [|k] eqn:M;
        [now apply matched_at_end|].
      cbn [firstn]. rewrite (matched_cons _ _ _ _ _ _ _ E), G.
      specialize (IHl (x :: s)). rewrite M in IHl. exact IHl.
    + destruct (matched r (x :: s)) as [|k] eqn:M;
        [now apply matched_at_end|].
      cbn [firstn]. rewrite (matched_cons _ _ _ _ _ _ _ E), G, L.
      specialize (IHr (x :: s)). rewrite M in IHr. exact IHr.
    + cbn [firstn]. rewrite (matched_cons _ _ _ _ _ _ _ E), G, L.
      now rewrite IHc.
Qed.

Lemma matched_plus_mono (t : TST) :
  forall s q, (matched t q <= matched (plus t s) q)%nat.
Proof.
  induction t as [|v w l IHl c IHc r IHr]; intros s q.
  - unfold matched at 1. simpl. lia.
  - destruct (sumbool_of_bool (at_end s)) as [E|E].
    { now rewrite (plus_at_end _ _ E). }
    destruct (sumbool_of_bool (at_end q)) as [Eq|Eq].
    { rewrite (matched_at_end _ _ Eq). lia. }
    destruct s as [|x s]; [discriminate|]. unfold at_end in E. simpl in E.
    destruct q as [|y q]; [discriminate|]. unfold at_end in Eq. simpl in Eq.
    rewrite (plus_cons _ _ _ _ _ _ _ E), (matched_cons _ _ _ _ _ _ _ Eq).
    destruct (x >? v) eqn:G; [|destruct (x <? v) eqn:L].
    + rewrite (matched_cons _ _ _ _ _ _ _ Eq).
      destruct (v >? y); [lia|]. destruct (v <? y); [apply IHr|lia].
    + rewrite (matched_cons _ _ _ _ _ _ _ Eq).
      destruct (v >? y); [apply IHl|]. destruct (v <? y); lia.
    + assert (x = v) by lia. subst x.
      rewrite (matched_cons _ _ _ _ _ _ _ Eq).
      destruct (v >? y); [lia|]. destruct (v <? y); [lia|].
      specialize (IHc s q). lia.
Qed.

(** X9. Asking for the longest prefix of a prefix already returned gives it
    back; an insertion never shortens the prefix returned for any query; and
    after the insertion of a string the prefix returned for that string, read
    up to its terminator, is the whole of it. *)
Theorem prefix_stable (T : TST) (S Q : list C) :
  prefix T (prefix T Q) = prefix T Q /\
  (length (prefix T Q) <= length (prefix (plus T S) Q))%nat /\
  prefix (plus T S) (c_str S) = c_str S.
Proof.
  split; [|split].
  - unfold prefix. fold (matched T Q).
    fold (matched T (firstn (matched T Q) Q)).
    rewrite matched_firstn. apply firstn_all2. rewrite length_firstn. lia.
  - rewrite !prefix_length. apply matched_plus_mono.
  - destruct (c_str S) as [|x s] eqn:E.
    + unfold prefix. now rewrite firstn_nil.
    + rewrite <- E, <- plus_c_str.
      destruct (prefix_search_plus_same T (c_str S) 0%nat Empty) as [Hn _];
        [apply c_str_nul_free|now rewrite E|].
      unfold prefix. rewrite Hn. apply firstn_all.
Qed.

(** Two live trees with the same members match every query equally far. *)
Lemma matched_le_of_members (t1 t2 : TST) (S : list C) :
  live t1 = true ->
  (forall Q, exist t1 Q = true -> exist t2 Q = true) ->
  (matched t1 S <= matched t2 S)%nat.
Proof.
  intros H1 Hsub. destruct (empty t1) eqn:E1.
  { destruct t1; [|discriminate]. unfold matched at 1. simpl. lia. }
  destruct (live_holds_matched t1 E1 H1 S) as (Q & HQ & Hlen & Hfst).
  apply (matched_upper_bound t2 S Q); trivial.
  - apply Hsub. now apply held_stored.
  - pose proof (prefix_search_bounds t1 S 0%nat Empty) as B.
    fold (matched t1 S) in B. lia.
Qed.

(** X10. On the trees of the public interface the longest-prefix query is
    determined by the members alone: two trees with the same members return
    the same prefix for every query, whatever their shapes. *)
Theorem prefix_determined_by_members (T1 T2 : TST) (S : list C) :
  constructible T1 -> constructible T2 ->
  (forall Q, exist T1 Q = exist T2 Q) ->
  prefix T1 S = prefix T2 S.
Proof.
  intros H1 H2 Heq. unfold prefix. fold (matched T1 S) (matched T2 S).
  apply constructible_live in H1, H2.
  assert (matched T1 S <= matched T2 S)%nat.
  { apply matched_le_of_members; trivial. intros Q. now rewrite Heq. }
  assert (matched T2 S <= matched T1 S)%nat.
  { apply matched_le_of_members; trivial. intros Q. now rewrite Heq. }
  f_equal. lia.
Qed.

Lemma prefix_determined_by_members_witness :
  let T1 := plus (plus Empty (lit "functor")) (lit "category") in
  let T2 := plus (plus Empty (lit "category")) (lit "functor") in
  T1 <> T2 /\ prefix T1 (lit "cat") = prefix T2 (lit "cat").
Proof.
  intros T1 T2. split; [discriminate|].
  apply (prefix_determined_by_members T1 T2 (lit "cat")).
  - unfold T1. repeat apply c_plus. apply c_default.
  - unfold T2. repeat apply c_plus. apply c_default.
  - intros Q. unfold T1, T2. apply eq_true_iff_eq.
    rewrite !exist_plus_iff. tauto.
Defined.

(** ** The ordering invariant *)

Lemma level_all_TST_of (P : C -> bool) (s : list C) :
  (at_end s = false -> P (deref s) = true) ->
  level_all P (TST_of s) = true.
Proof.
  destruct s as [|x s]; [reflexivity|]. unfold at_end. simpl.
  destruct (x =? NUL); [reflexivity|]. intros H. simpl.
  now rewrite H.
Qed.

Lemma level_all_plus (P : C -> bool) (t : TST) :
  forall s,
    level_all P t = true ->
    (at_end s = false -> P (deref s) = true) ->
    level_all P (plus t s) = true.
Proof.
  induction t as [|v w l IHl c _ r IHr]; intros s Ht Hs.
  - simpl. destruct (deref s =? NUL) eqn:E; [reflexivity|].
    now apply level_all_TST_of.
  - cbn [plus]. destruct (deref s =? NUL) eqn:E; [exact Ht|].
    simpl in Ht. rewrite !andb_true_iff in Ht. destruct Ht as ((Hv & Hl) & Hr).
    destruct (deref s >? v); [|destruct (deref s <? v)]; simpl.
    + rewrite Hv, Hl. now apply IHr.
    + rewrite Hv, Hr, andb_true_r. now apply IHl.
    + rewrite Hl, Hr, !andb_true_r. now apply Hs.
Qed.

Lemma ordered_TST_of (s : list C) : ordered (TST_of s) = true.
Proof.
  induction s as [|x s IH]; [reflexivity|]. simpl.
  destruct (x =? NUL); [reflexivity|]. simpl. now rewrite IH.
Qed.

Lemma ordered_plus (t : TST) :
  forall s, ordered t = true -> ordered (plus t s) = true.
Proof.
  induction t as [|v w l IHl c IHc r IHr]; intros s H.
  - simpl. destruct (deref s =? NUL); [reflexivity|apply ordered_TST_of].
  - cbn [plus]. destruct (deref s =? NUL) eqn:E; [exact H|].
    simpl in H. rewrite !andb_true_iff in H.
    destruct H as ((((Hll & Hlr) & Hl) & Hc) & Hr).
    destruct (deref s >? v) eqn:G; [|destruct (deref s <? v) eqn:L]; simpl.
    + rewrite Hll, Hl, Hc, (IHr _ Hr), !andb_true_r. simpl.
      apply level_all_plus; [exact Hlr|]. intros _. lia.
    + rewrite Hlr, Hc, Hr, (IHl _ Hl), !andb_true_r.
      apply level_all_plus; [exact Hll|]. intros _. lia.
    + assert (deref s = v) by lia.
      replace (deref s) with v by lia.
      now rewrite Hll, Hlr, Hl, Hr, (IHc _ Hc).
Qed.

(** X11. Every tree the public interface can produce is ordered: at each
    node, the nodes of the same symbol position reached through the left child
    hold smaller symbols and those reached through the right child hold
    greater ones.  The constructor and insertion establish and keep it. *)
Theorem constructible_ordered (T : TST) :
  constructible T -> ordered T = true.
Proof.
  induction 1 as [ | str | t str _ IH
                 | v w l c r _ IH | v w l c r _ IH | v w l c r _ IH ].
  - reflexivity.
  - apply ordered_TST_of.
  - now apply ordered_plus.
  - simpl in IH. rewrite !andb_true_iff in IH. tauto.
  - simpl in IH. rewrite !andb_true_iff in IH. tauto.
  - simpl in IH. rewrite !andb_true_iff in IH. tauto.
Qed.

Lemma constructible_ordered_witness : ordered scenario = true.
Proof.
  apply (constructible_ordered scenario).
  unfold scenario. repeat apply c_plus. apply c_default.
Defined.

(** ** Search is complete on ordered trees *)

Lemma on_level_all (P : C -> bool) (t : TST) v w l c r :
  on_level t (Node v w l c r) -> level_all P t = true -> P v = true.
Proof.
  intros H. remember (Node v w l c r) as n eqn:En.
  induction H as [v0 w0 l0 c0 r0|v0 w0 l0 c0 r0 n _ IH|v0 w0 l0 c0 r0 n _ IH];
    intros Hall; simpl in Hall; rewrite !andb_true_iff in Hall.
  - injection En as -> -> -> -> ->. tauto.
  - apply IH; tauto.
  - apply IH; tauto.
Qed.

Lemma on_level_ordered (t n : TST) :
  on_level t n -> ordered t = true -> ordered n = true.
Proof.
  induction 1 as [v w l c r|v w l c r n _ IH|v w l c r n _ IH]; intros H;
    trivial; simpl in H; rewrite !andb_true_iff in H; apply IH; tauto.
Qed.

(** On an ordered tree the comparisons lead to any node of the level. *)
Lemma found_on_level (t : TST) v w l c r (q : list C) :
  on_level t (Node v w l c r) -> ordered t = true -> (v =? NUL) = false ->
  (forall acc p, found (Node v w l c r) (v :: q) acc p) ->
  forall acc p, found t (v :: q) acc p.
Proof.
  intros H. remember (Node v w l c r) as n eqn:En.
  induction H as [v0 w0 l0 c0 r0|v0 w0 l0 c0 r0 n Hn IH|v0 w0 l0 c0 r0 n Hn IH];
    intros Ho Hv Hf acc p.
  - apply Hf.
  - subst n. simpl in Ho. rewrite !andb_true_iff in Ho.
    destruct Ho as ((((Hll & Hlr) & Hl) & Hc) & Hr).
    pose proof (on_level_all _ _ _ _ _ _ _ Hn Hll) as Hlt. simpl in Hlt.
    apply (found_cons _ _ _ _ _ _ _ _ _ Hv).
    replace (v0 >? v) with true by lia. now apply IH.
  - subst n. simpl in Ho. rewrite !andb_true_iff in Ho.
    destruct Ho as ((((Hll & Hlr) & Hl) & Hc) & Hr).
    pose proof (on_level_all _ _ _ _ _ _ _ Hn Hlr) as Hlt. simpl in Hlt.
    apply (found_cons _ _ _ _ _ _ _ _ _ Hv).
    replace (v0 >? v) with false by lia.
    replace (v0 <? v) with true by lia. now apply IH.
Qed.

Lemma spells_found (t : TST) (q : list C) :
  spells t q -> ordered t = true -> forall acc p, found t q acc p.
Proof.
  induction 1 as [t v l c r Hn Hv|t v w l c r q Hn Hv Hq IH]; intros Ho.
  - apply Z.eqb_neq in Hv.
    apply (found_on_level t v true l c r []); trivial.
    intros acc p. apply (found_cons _ _ _ _ _ _ _ _ _ Hv).
    rewrite Z.gtb_ltb, Z.ltb_irrefl. now apply found_nil.
  - apply Z.eqb_neq in Hv.
    apply (found_on_level t v w l c r q); trivial.
    intros acc p. apply (found_cons _ _ _ _ _ _ _ _ _ Hv).
    rewrite Z.gtb_ltb, Z.ltb_irrefl. apply IH.
    pose proof (on_level_ordered _ _ Hn Ho) as Hon. simpl in Hon.
    rewrite !andb_true_iff in Hon. tauto.
Qed.

Lemma spells_left v w l c r (q : list C) :
  spells l q -> spells (Node v w l c r) q.
Proof.
  inversion 1; subst.
  - eapply spells_last; [apply level_left; eassumption|assumption].
  - eapply spells_more; [apply level_left; eassumption|assumption..].
Qed.

Lemma spells_right v w l c r (q : list C) :
  spells r q -> spells (Node v w l c r) q.
Proof.
  inversion 1; subst.
  - eapply spells_last; [apply level_right; eassumption|assumption].
  - eapply spells_more; [apply level_right; eassumption|assumption..].
Qed.

Lemma found_spells (t : TST) :
  forall q acc p, q <> [] -> found t q acc p -> spells t q.
Proof.
  induction t as [|v w l IHl c IHc r IHr]; intros q acc p Hne H.
  - apply found_stop in H. now destruct H.
  - destruct (sumbool_of_bool (at_end q)) as [E|E].
    { apply (found_at_end _ _ _ _ E) in H. now destruct H. }
    destruct q as [|y q]; [discriminate|]. unfold at_end in E. simpl in E.
    apply (found_cons _ _ _ _ _ _ _ _ _ E) in H.
    destruct (v >? y) eqn:G; [|destruct (v <? y) eqn:L].
    + apply spells_left. now apply (IHl _ _ _ Hne H).
    + apply spells_right. now apply (IHr _ _ _ Hne H).
    + assert (v = y) by lia. subst y. apply Z.eqb_neq in E.
      destruct q as [|z q].
      * apply (found_at_end c [] _ _ eq_refl) in H. destruct H as [_ H].
        unfold ends_word in H. simpl in H. subst w.
        eapply spells_last; [apply level_here|exact E].
      * eapply spells_more; [apply level_here|exact E|].
        assert (Hz : z :: q <> []) by discriminate.
        now apply (IHc _ _ _ Hz H).
Qed.

(** X12. On an ordered tree, membership is complete: [exist] answers true
    exactly for the strings written in the tree, so the comparisons never make
    the search miss a word that is there.  (That a string found is written in
    the tree holds without the ordering.) *)
Theorem exist_complete_on_ordered (T : TST) (Q : list C) :
  ordered T = true ->
  (exist T Q = true <-> spells T Q).
Proof.
  intros Ho. split.
  - intros H. pose proof H as H'. apply exist_found in H.
    apply (found_spells T Q 0%nat Empty); trivial.
    intros ->. destruct T; discriminate H'.
  - intros H. apply exist_found. now apply spells_found.
Qed.

Lemma exist_complete_on_ordered_witness :
  exist scenario (lit "functor") = true <-> spells scenario (lit "functor").
Proof.
  apply (exist_complete_on_ordered scenario (lit "functor")). reflexivity.
Defined.

(** ** No dead branch *)

Lemma constructible_subtree (t : TST) :
  constructible t ->
  forall q u, subtree_at t q = Some u -> constructible u.
Proof.
  intros Ht q. revert t Ht.
  induction q as [|d q IH]; intros t Ht u H.
  - simpl in H. now injection H as <-.
  - destruct t as [|v w l c r]; [discriminate|]. cbn [subtree_at] in H.
    destruct d.
    + apply (IH l (c_left _ _ _ _ _ Ht) _ H).
    + apply (IH c (c_center _ _ _ _ _ Ht) _ H).
    + apply (IH r (c_right _ _ _ _ _ Ht) _ H).
Qed.

(** X13. In a tree of the public interface no node holds the terminator, a
    node that does not end a word has a center child, and so every non-empty
    subtree, at whatever position, has a member: no branch is dead. *)
Theorem constructible_no_dead_branch (T : TST) (q : path) (u : TST) :
  constructible T -> subtree_at T q = Some u ->
  live u = true /\ (empty u = false -> exists Q, exist u Q = true).
Proof.
  intros HT Hq.
  pose proof (constructible_live u (constructible_subtree T HT q u Hq)) as Hl.
  split; [exact Hl|]. intros Hne.
  destruct (live_holds_word u Hne Hl) as (Q & HQ).
  exists Q. now apply held_stored.
Qed.

Lemma constructible_no_dead_branch_witness :
  let u := sub scenario [to_right; to_center] in
  live u = true /\ (empty u = false -> exists Q, exist u Q = true).
Proof.
  apply (constructible_no_dead_branch scenario [to_right; to_center]).
  - unfold scenario. repeat apply c_plus. apply c_default.
  - reflexivity.
Defined.

(** ** The root after an insertion *)

(** X14. The result of an insertion is empty only when the tree was empty and
    the string is empty.  Insertion into a non-empty tree keeps the symbol of
    the root; insertion of a non-empty string into the empty tree makes its
    first symbol the root.  So [value()] on the result throws exactly when the
    tree and the string are both empty. *)
Theorem plus_root (T : TST) (S : list C) :
  empty (plus T S) = empty T && at_end S /\
  (empty T = false -> value (plus T S) = value T) /\
  (empty T = true -> at_end S = false -> value (plus T S) = Ret (deref S)) /\
  (value (plus T S) = EmptyTreeError <-> empty T = true /\ at_end S = true).
Proof.
  destruct (sumbool_of_bool (at_end S)) as [E|E].
  - rewrite (plus_at_end _ _ E), E, andb_true_r.
    repeat split; trivial; try discriminate; try tauto.
    + destruct T; [reflexivity|discriminate].
    + now destruct T.
  - rewrite E, andb_false_r, (plus_not_empty _ _ E).
    destruct T as [|v w l c r].
    + assert (H : plus Empty S = TST_of S).
      { simpl. unfold at_end in E. now rewrite E. }
      rewrite H. destruct S as [|x s]; [discriminate|].
      unfold at_end in E. simpl in E. simpl. rewrite E.
      repeat split; trivial; try discriminate. now intros [_ H'].
    + cbn [plus]. unfold at_end in E. rewrite E.
      assert (Hv : value (if deref S >? v
                          then Node v w l c (plus r S)
                          else if deref S <? v
                               then Node v w (plus l S) c r
                               else Node (deref S) (w || at_end (next S)) l
                                      (plus c (next S)) r) = Ret v).
      { destruct (deref S >? v) eqn:G; [reflexivity|].
        destruct (deref S <? v) eqn:L; [reflexivity|].
        unfold value. simpl. f_equal. lia. }
      rewrite Hv. repeat split; trivial; try discriminate.
      now intros [H' _].
Qed.

(** ** Detail::fold *)

(** X15. [Detail::fold] is the left fold of the range: it returns the
    accumulator for an empty range, and folding a range made of two parts is
    folding the second part from the result of the first. *)
Theorem range_fold_is_fold_left
    (A Acc : Type) (functor : Acc -> A -> Acc) (r1 r2 : list A) (acc : Acc) :
  Detail.fold [] acc functor = acc /\
  Detail.fold r1 acc functor = fold_left functor r1 acc /\
  Detail.fold (r1 ++ r2) acc functor =
    Detail.fold r2 (Detail.fold r1 acc functor) functor.
Proof.
  split; [reflexivity|]. split; [|apply range_fold_app].
  revert acc. induction r1 as [|x r1 IH]; intros acc; simpl; [reflexivity|].
  apply IH.
Qed.

(** ** The store has no cycle *)

Lemma below_mono (a b : nat) (p : Store.ptr) :
  StoreInv.below a p = true -> (a <= b)%nat -> StoreInv.below b p = true.
Proof.
  destruct p as [x|]; simpl; [|reflexivity].
  rewrite !Nat.ltb_lt. lia.
Qed.

Lemma acyclic_from_app (h k : Store.heap) :
  forall a,
    StoreInv.acyclic_from a (h ++ k) =
    StoreInv.acyclic_from a h && StoreInv.acyclic_from (a + length h) k.
Proof.
  induction h as [|n h IH]; intros a; simpl.
  - now rewrite Nat.add_0_r.
  - rewrite IH. replace (a + S (length h))%nat with (S a + length h)%nat by lia.
    now rewrite !andb_assoc.
Qed.

Lemma acyclic_from_nth (h : Store.heap) :
  forall a i n,
    StoreInv.acyclic_from a h = true -> nth_error h i = Some n ->
    StoreInv.below (a + i) (Store.n_left n) = true /\
    StoreInv.below (a + i) (Store.n_center n) = true /\
    StoreInv.below (a + i) (Store.n_right n) = true.
Proof.
  induction h as [|m h IH]; intros a i n Ha Hi; [now destruct i|].
  simpl in Ha. rewrite !andb_true_iff in Ha.
  destruct Ha as (((Hl & Hc) & Hr) & Hh).
  destruct i as [|i]; simpl in Hi.
  - injection Hi as <-. now rewrite Nat.add_0_r.
  - replace (a + S i)%nat with (S a + i)%nat by lia. now apply IH.
Qed.

Lemma acyclic_make_shared (h : Store.heap) (n : Store.node) :
  StoreInv.acyclic h = true ->
  StoreInv.valid h (Store.n_left n) = true ->
  StoreInv.valid h (Store.n_center n) = true ->
  StoreInv.valid h (Store.n_right n) = true ->
  StoreInv.acyclic (fst (Store.make_shared h n)) = true /\
  StoreInv.valid (fst (Store.make_shared h n))
                 (snd (Store.make_shared h n)) = true.
Proof.
  unfold StoreInv.acyclic, StoreInv.valid. intros Hh Hl Hc Hr. simpl.
  rewrite acyclic_from_app, Hh. simpl. rewrite Hl, Hc, Hr. split; trivial.
  rewrite length_app. simpl. apply Nat.ltb_lt. lia.
Qed.

Lemma acyclic_TST_of (s : list C) :
  forall h,
    StoreInv.acyclic h = true ->
    StoreInv.acyclic (fst (Store.TST_of h s)) = true /\
    StoreInv.valid (fst (Store.TST_of h s)) (snd (Store.TST_of h s)) = true /\
    (length h <= length (fst (Store.TST_of h s)))%nat.
Proof.
  induction s as [|x s IH]; intros h Hh; [simpl; auto|].
  cbn [Store.TST_of]. destruct (x =? NUL); [simpl; auto|].
  destruct (IH h Hh) as (Ha & Hv & Hlen).
  destruct (Store.TST_of h s) as [h1 ctr]. simpl in Ha, Hv, Hlen.
  destruct (acyclic_make_shared h1 (Store.mkNode x (at_end s) None ctr None))
    as [H1 H2]; trivial.
  split; [exact H1|]. split; [exact H2|].
  simpl. rewrite length_app. simpl. lia.
Qed.

Lemma acyclic_plus (fuel : nat) :
  forall h p str h' p',
    StoreInv.acyclic h = true -> StoreInv.valid h p = true ->
    Store.plus fuel h p str = Some (h', p') ->
    StoreInv.acyclic h' = true /\ StoreInv.valid h' p' = true /\
    (length h <= length h')%nat.
Proof.
  induction fuel as [|fuel IH]; intros h p str h' p' Hh Hp H; [discriminate|].
  cbn [Store.plus] in H.
  destruct (deref str =? NUL).
  { injection H as <- <-. auto. }
  destruct p as [a|].
  2:{ injection H as H. pose proof (acyclic_TST_of str h Hh) as G.
      rewrite H in G. exact G. }
  destruct (nth_error h a) as [n|] eqn:Ha; [|discriminate].
  destruct (acyclic_from_nth h 0 a n Hh Ha) as (Hl & Hc & Hr).
  simpl in Hl, Hc, Hr.
  assert (Hlt : (a <= length h)%nat).
  { apply Nat.lt_le_incl, nth_error_Some. congruence. }
  assert (Build : forall h1 (n' : Store.node),
            StoreInv.acyclic h1 = true -> (length h <= length h1)%nat ->
            StoreInv.valid h1 (Store.n_left n') = true ->
            StoreInv.valid h1 (Store.n_center n') = true ->
            StoreInv.valid h1 (Store.n_right n') = true ->
            Some (Store.make_shared h1 n') = Some (h', p') ->
            StoreInv.acyclic h' = true /\ StoreInv.valid h' p' = true /\
            (length h <= length h')%nat).
  { intros h1 n' H1 Hlen Hl' Hc' Hr' E.
    destruct (acyclic_make_shared h1 n' H1 Hl' Hc' Hr') as [G1 G2].
    unfold Store.make_shared in *. simpl in G1, G2. injection E as <- <-.
    split; [exact G1|]. split; [exact G2|]. rewrite length_app. lia. }
  assert (Old : forall h1 q, (length h <= length h1)%nat ->
            StoreInv.below a q = true -> StoreInv.valid h1 q = true).
  { intros h1 q Hlen Hq. apply (below_mono a); [exact Hq|lia]. }
  destruct (deref str >? Store.n_value n); [|destruct (deref str <? Store.n_value n)].
  - destruct (Store.plus fuel h (Store.n_right n) str) as [[h1 r']|] eqn:E;
      [|discriminate].
    destruct (IH _ _ _ _ _ Hh (Old h _ (le_n _) Hr) E) as (G1 & G2 & G3).
    refine (Build h1 _ G1 G3 _ _ _ H); simpl; auto.
  - destruct (Store.plus fuel h (Store.n_left n) str) as [[h1 l']|] eqn:E;
      [|discriminate].
    destruct (IH _ _ _ _ _ Hh (Old h _ (le_n _) Hl) E) as (G1 & G2 & G3).
    refine (Build h1 _ G1 G3 _ _ _ H); simpl; auto.
  - destruct (Store.plus fuel h (Store.n_center n) (next str))
      as [[h1 c']|] eqn:E; [|discriminate].
    destruct (IH _ _ _ _ _ Hh (Old h _ (le_n _) Hc) E) as (G1 & G2 & G3).
    refine (Build h1 _ G1 G3 _ _ _ H); simpl; auto.
Qed.

(** In a store without cycle every valid pointer represents a tree. *)
Lemma acyclic_rep (h : Store.heap) :
  StoreInv.acyclic h = true ->
  forall m a, (a < m)%nat -> (a < length h)%nat ->
              exists t, Store.rep h (Some a) t.
Proof.
  intros Hh. induction m as [|m IH]; intros a Ham Hah; [lia|].
  destruct (nth_error h a) as [n|] eqn:Ha;
    [|apply nth_error_None in Ha; lia].
  destruct (acyclic_from_nth h 0 a n Hh Ha) as (Hl & Hc & Hr).
  simpl in Hl, Hc, Hr.
  assert (Child : forall q, StoreInv.below a q = true ->
                            exists t, Store.rep h q t).
  { intros [b|] Hb; [|exists Empty; constructor].
    simpl in Hb. apply Nat.ltb_lt in Hb. apply IH; lia. }
  destruct (Child _ Hl) as (l & Hl'), (Child _ Hc) as (c & Hc'),
           (Child _ Hr) as (r & Hr').
  eexists. econstructor; eassumption.
Qed.

(** X16. The store never holds a cycle.  From a store in which every node
    points only to older nodes, the constructor and an insertion at any valid
    root return (the insertion within some budget) a store that extends the
    old one, has the same property, and a root that is valid in it. *)
Theorem store_stays_acyclic (h : Store.heap) (p : Store.ptr) (str : list C) :
  StoreInv.acyclic h = true -> StoreInv.valid h p = true ->
  (exists k, fst (Store.TST_of h str) = h ++ k /\
             StoreInv.acyclic (h ++ k) = true /\
             StoreInv.valid (h ++ k) (snd (Store.TST_of h str)) = true) /\
  (exists fuel k p',
     Store.plus fuel h p str = Some (h ++ k, p') /\
     StoreInv.acyclic (h ++ k) = true /\
     StoreInv.valid (h ++ k) p' = true).
Proof.
  intros Hh Hp. split.
  - destruct (store_TST_of str h) as (k & p' & Hk & _).
    destruct (acyclic_TST_of str h Hh) as (G1 & G2 & _).
    rewrite Hk in *. simpl in *. now exists k.
  - assert (Hrep : exists t, Store.rep h p t).
    { destruct p as [a|]; [|exists Empty; constructor].
      simpl in Hp. apply Nat.ltb_lt in Hp.
      apply (acyclic_rep h Hh (S a)); lia. }
    destruct Hrep as (t & Ht).
    destruct (store_plus t h p str Ht) as (k & p' & Hk & _).
    specialize (Hk (S (height t)) (Nat.lt_succ_diag_r _)).
    destruct (acyclic_plus _ _ _ _ _ _ Hh Hp Hk) as (G1 & G2 & _).
    now exists (S (height t)), k, p'.
Qed.

Lemma store_stays_acyclic_witness :
  let h := [Store.mkNode 98 true None None None;
            Store.mkNode 97 false None (Some 0%nat) None] in
  let p := Some 1%nat in
  let str := lit "ac" in
  (exists k, fst (Store.TST_of h str) = h ++ k /\
             StoreInv.acyclic (h ++ k) = true /\
             StoreInv.valid (h ++ k) (snd (Store.TST_of h str)) = true) /\
  (exists fuel k p',
     Store.plus fuel h p str = Some (h ++ k, p') /\
     StoreInv.acyclic (h ++ k) = true /\
     StoreInv.valid (h ++ k) p' = true).
Proof.
  intros h p str.
  apply (store_stays_acyclic h p str); reflexivity.
Defined.

(** ** Strings with an embedded terminator *)

Lemma matched_c_str (t : TST) : forall s, matched t (c_str s) = matched t s.
Proof.
  induction t as [|v w l IHl c IHc r IHr]; intros s; [reflexivity|].
  destruct (sumbool_of_bool (at_end s)) as [E|E].
  - rewrite (matched_at_end _ _ E). apply matched_at_end.
    now rewrite at_end_c_str.
  - destruct s as [|x s]; [discriminate|]. unfold at_end in E. simpl in E.
    pose proof (IHl (x :: s)) as Hl. pose proof (IHr (x :: s)) as Hr.
    cbn [c_str] in *. rewrite E in *.
    rewrite !(matched_cons _ _ _ _ _ _ _ E).
    destruct (v >? x); [exact Hl|]. destruct (v <? x); [exact Hr|].
    now rewrite IHc.
Qed.

Lemma firstn_c_str (s : list C) :
  forall k, (k <= length (c_str s))%nat -> firstn k (c_str s) = firstn k s.
Proof.
  induction s as [|x s IH]; intros k Hk; [reflexivity|].
  simpl in *. destruct (x =? NUL).
  - simpl in Hk. now replace k with 0%nat by lia.
  - destruct k as [|k]; [reflexivity|]. simpl in *. rewrite IH; [reflexivity|lia].
Qed.

(** X17. What follows an embedded terminator in a string is ignored by the
    constructor, by insertion and by the longest-prefix query, which all read
    the string up to the terminator; [exist], which also compares lengths,
    answers false for every string that holds a terminator. *)
Theorem embedded_terminator (T : TST) (S : list C) :
  TST_of S = TST_of (c_str S) /\
  plus T S = plus T (c_str S) /\
  prefix T S = prefix T (c_str S) /\
  (nul_free S = false -> exist T S = false).
Proof.
  split; [now rewrite TST_of_c_str|]. split; [now rewrite plus_c_str|].
  split.
  - unfold prefix. fold (matched T S) (matched T (c_str S)).
    rewrite matched_c_str. symmetry. apply firstn_c_str.
    rewrite <- (matched_c_str T S).
    pose proof (prefix_search_bounds T (c_str S) 0%nat Empty) as B.
    fold (matched T (c_str S)) in B. lia.
  - intros H. destruct (exist T S) eqn:E; [|reflexivity].
    apply exist_found, found_nul_free in E. congruence.
Qed.
